(** * A shallow embedding of the cron expression parser (parser.js)

    The development follows the source function by function:
    [parseField], [parseStepValue], [parseRange], [parseList],
    [generateRange] and [parseCronExpression] keep their names and their
    control flow.

    Modelling choices.
    - A JavaScript string is a [string]: every [ascii] stands for one code
      unit below 256.  The white space of [trim], [parseInt] and the
      regular expression [\s] is, on these code units, 9-13, 32 and 160.
    - A JavaScript number that holds an integer is a [Z]; [NaN] is [None]
      of [number].  The arithmetic of the parser ([i += step], [a - b], the
      comparisons) is exact on integers below 2^53 in magnitude, and an
      array holds a bounded number of elements.  A statement that says
      what a loop returns, or that a call ends, assumes these limits
      ([safeInteger], [withinLimits]); a statement about a call that has
      returned, or that relates two calls, needs no such assumption.
    - A thrown [Error] is a value of [ParseError]; each constructor is one
      [throw] site and carries what the message interpolates.
    - The [for] loop of [generateRange] and the recursion of [parseField]
      through [parseList] consume fuel: [None] says the fuel ran out, and
      the termination theorem shows that enough fuel always exists. *)

From Stdlib Require Import ZArith List String Ascii Bool Lia Sorted.
Import ListNotations.

Open Scope string_scope.
Open Scope list_scope.
Open Scope Z_scope.

(** ** Strings *)

(** [WhiteSpace] and [LineTerminator] code units below 256. *)
Definition isWhiteSpace (c : ascii) : bool :=
  let n := N_of_ascii c in
  ((9 <=? n) && (n <=? 13) || (n =? 32) || (n =? 160))%N.

(** [s.includes(c)] for a one-character search string. *)
Fixpoint includes (s : string) (c : ascii) : bool :=
  match s with
  | EmptyString => false
  | String x s' => Ascii.eqb x c || includes s' c
  end.

(** [s.split(sep)] for a one-character separator. *)
Fixpoint split (s : string) (sep : ascii) : list string :=
  match s with
  | EmptyString => [EmptyString]
  | String x s' =>
      if Ascii.eqb x sep then EmptyString :: split s' sep
      else match split s' sep with
           | [] => [String x EmptyString]
           | piece :: pieces => String x piece :: pieces
           end
  end.

Fixpoint trimStart (s : string) : string :=
  match s with
  | EmptyString => EmptyString
  | String x s' => if isWhiteSpace x then trimStart s' else s
  end.

Fixpoint trimEnd (s : string) : string :=
  match s with
  | EmptyString => EmptyString
  | String x s' =>
      match trimEnd s' with
      | EmptyString => if isWhiteSpace x then EmptyString else String x EmptyString
      | t => String x t
      end
  end.

(** [s.trim()] *)
Definition trim (s : string) : string := trimEnd (trimStart s).

(** [s.split(/\s+/)]: [inRun] says that the previous code unit was white
    space, so that a run of white space separates only once. *)
Fixpoint splitWhitespace (inRun : bool) (s : string) : list string :=
  match s with
  | EmptyString => [EmptyString]
  | String x s' =>
      if isWhiteSpace x then
        if inRun then splitWhitespace true s'
        else EmptyString :: splitWhitespace true s'
      else match splitWhitespace false s' with
           | [] => [String x EmptyString]
           | piece :: pieces => String x piece :: pieces
           end
  end.

(** [parts.join(sep)] *)
Definition join (parts : list string) (sep : string) : string :=
  String.concat sep parts.

(** ** Numbers *)

Definition number : Type := option Z.
Definition NaN : number := None.

Definition digitValue (c : ascii) : option Z :=
  let n := N_of_ascii c in
  if ((48 <=? n) && (n <=? 57))%N then Some (Z.of_N n - 48) else None.

(** The longest prefix of decimal digits, read as an integer; [NaN] when
    that prefix is empty. *)
Fixpoint parseDigits (s : string) (acc : Z) (seen : bool) : number :=
  match s with
  | EmptyString => if seen then Some acc else NaN
  | String x s' =>
      match digitValue x with
      | Some d => parseDigits s' (10 * acc + d) true
      | None => if seen then Some acc else NaN
      end
  end.

(** [parseInt(s, 10)]: leading white space is skipped, one sign is read,
    and whatever follows the digits is ignored.  The value is the exact
    integer; the program holds it exactly when it is a safe integer and
    rounds it to the nearest double otherwise. *)
Definition parseInt (s : string) : number :=
  match trimStart s with
  | EmptyString => NaN
  | String x s' =>
      if Ascii.eqb x "-" then option_map Z.opp (parseDigits s' 0 false)
      else if Ascii.eqb x "+" then parseDigits s' 0 false
      else parseDigits (String x s') 0 false
  end.

(** ** Errors and results *)

(** The errors that the program itself throws.  An error of the engine
    (an array that outgrows its capacity) is not among them; it can only
    arise beyond [withinLimits]. *)
Inductive ParseError : Type :=
| InvalidValue (expression : string) (min max : Z)
| InvalidStepValue (step : string)
| InvalidStepRange (range : string)
| InvalidStepStart (range : string)
| InvalidRange (expression : string)
| RangeOutOfBounds (expression : string) (min max : Z)
| CronStringRequired
| InvalidCronExpression
| FailedToParse (cause : ParseError).

Inductive outcome (A : Type) : Type :=
| Ok (a : A)
| Throw (e : ParseError).
Arguments Ok {A} a.
Arguments Throw {A} e.

(** A computation returns, throws, or runs out of fuel ([None]). *)
Definition M (A : Type) : Type := option (outcome A).

Definition ret {A} (a : A) : M A := Some (Ok a).
Definition throw {A} (e : ParseError) : M A := Some (Throw e).
Definition bind {A B} (m : M A) (k : A -> M B) : M B :=
  match m with
  | Some (Ok a) => k a
  | Some (Throw e) => Some (Throw e)
  | None => None
  end.

Notation "x <- m ;; k" := (bind m (fun x => k))
  (at level 61, m at next level, right associativity).

(** [try { m } catch (error) { throw handler(error) }] *)
Definition try_catch {A} (m : M A) (handler : ParseError -> ParseError) : M A :=
  match m with
  | Some (Throw e) => Some (Throw (handler e))
  | other => other
  end.

(** ** The field expander *)

(** The loop of [generateRange]: [for (i = start; i <= end; i += step)].
    The sum is the exact one and the array takes every [push]: this is
    the program's loop within [withinLimits], stated further down. *)
Fixpoint generateRange_loop (fuel : nat) (i end_ step : Z) (result : list Z)
  : M (list Z) :=
  if i <=? end_ then
    match fuel with
    | O => None
    | S fuel' => generateRange_loop fuel' (i + step) end_ step (result ++ [i])
    end
  else ret result.

Definition generateRange (fuel : nat) (start end_ step : Z) : M (list Z) :=
  generateRange_loop fuel start end_ step [].

Definition parseStepValue (fuel : nat) (expression : string) (min max : Z)
  : M (list Z) :=
  let parts := split expression "/" in
  let range := nth 0 parts "undefined" in
  let step := nth 1 parts "undefined" in
  match parseInt step with
  | None => throw (InvalidStepValue step)
  | Some stepValue =>
      if stepValue <=? 0 then throw (InvalidStepValue step)
      else if negb (range =? "*")%string then
        if includes range "-" then
          let bounds := map parseInt (split range "-") in
          match nth 0 bounds NaN, nth 1 bounds NaN with
          | Some rangeStart, Some rangeEnd =>
              generateRange fuel rangeStart rangeEnd stepValue
          | _, _ => throw (InvalidStepRange range)
          end
        else
          match parseInt range with
          | None => throw (InvalidStepStart range)
          | Some start => generateRange fuel start max stepValue
          end
      else generateRange fuel min max stepValue
  end.

Definition parseRange (fuel : nat) (expression : string) (min max : Z)
  : M (list Z) :=
  let bounds := map parseInt (split expression "-") in
  match nth 0 bounds NaN, nth 1 bounds NaN with
  | Some start, Some end_ =>
      if (start <? min) || (end_ >? max) || (start >? end_)
      then throw (RangeOutOfBounds expression min max)
      else generateRange fuel start end_ 1
  | _, _ => throw (InvalidRange expression)
  end.

(** A [Set] of numbers keeps its elements in insertion order. *)
Definition Set_add (values : list Z) (v : Z) : list Z :=
  if existsb (Z.eqb v) values then values else values ++ [v].

(** [parsedValues.forEach(v => values.add(v))] *)
Definition forEach_add (parsedValues values : list Z) : list Z :=
  fold_left Set_add parsedValues values.

(** The comparator [(a, b) => a - b]. *)
Definition ascending (a b : Z) : Z := a - b.

(** [array.sort(compare)]: insertion of each element at the first place
    where the comparator is negative. *)
Fixpoint sort_insert (compare : Z -> Z -> Z) (x : Z) (sorted : list Z) : list Z :=
  match sorted with
  | [] => [x]
  | y :: rest =>
      if compare x y <? 0 then x :: y :: rest
      else y :: sort_insert compare x rest
  end.

Definition sort (compare : Z -> Z -> Z) (array : list Z) : list Z :=
  fold_right (sort_insert compare) [] array.

(** The body of [for (const part of parts)] in [parseList], with the
    recursive call to [parseField] as [self]. *)
Fixpoint parseList_loop (self : string -> M (list Z)) (parts : list string)
    (values : list Z) : M (list Z) :=
  match parts with
  | [] => ret values
  | part :: rest =>
      parsedValues <- self (trim part) ;;
      parseList_loop self rest (forEach_add parsedValues values)
  end.

Fixpoint parseField (fuel : nat) (expression : string) (min max : Z)
  {struct fuel} : M (list Z) :=
  match fuel with
  | O => None
  | S fuel' =>
      if (expression =? "*")%string then generateRange fuel' min max 1
      else if includes expression "/" then
        parseStepValue fuel' expression min max
      else if includes expression "-" && negb (includes expression ",") then
        parseRange fuel' expression min max
      else if includes expression "," then
        parseList fuel' expression min max
      else
        match parseInt expression with
        | None => throw (InvalidValue expression min max)
        | Some value =>
            if (value <? min) || (value >? max)
            then throw (InvalidValue expression min max)
            else ret [value]
        end
  end
with parseList (fuel : nat) (expression : string) (min max : Z)
  {struct fuel} : M (list Z) :=
  match fuel with
  | O => None
  | S fuel' =>
      let parts := split expression "," in
      values <- parseList_loop (fun part => parseField fuel' part min max)
                               parts [] ;;
      ret (sort ascending values)
  end.

(** ** The schedule parser *)

Record field_config : Type := {
  min : Z;
  max : Z;
  name : string
}.

Module FIELD_CONFIG.
Definition minute := {| min := 0; max := 59; name := "minute" |}.
Definition hour := {| min := 0; max := 23; name := "hour" |}.
Definition dayOfMonth := {| min := 1; max := 31; name := "day of month" |}.
Definition month := {| min := 1; max := 12; name := "month" |}.
Definition dayOfWeek := {| min := 0; max := 6; name := "day of week" |}.
Definition all := [minute; hour; dayOfMonth; month; dayOfWeek].
End FIELD_CONFIG.

Record parsed : Type := {
  minute : list Z;
  hour : list Z;
  dayOfMonth : list Z;
  month : list Z;
  dayOfWeek : list Z;
  command : string
}.

(** The values a caller can pass for [cronString]. *)
Inductive value : Type :=
| Undefined
| Null
| Boolean (b : bool)
| Number (n : number)
| Str (s : string)
| Object.

Definition typeof (v : value) : string :=
  match v with
  | Undefined => "undefined"
  | Null => "object"
  | Boolean _ => "boolean"
  | Number _ => "number"
  | Str _ => "string"
  | Object => "object"
  end.

Definition ToBoolean (v : value) : bool :=
  match v with
  | Undefined | Null => false
  | Boolean b => b
  | Number None => false
  | Number (Some n) => negb (n =? 0)
  | Str s => negb (s =? "")%string
  | Object => true
  end.

(** The text of a value whose [typeof] is ["string"]. *)
Definition textOf (v : value) : string :=
  match v with
  | Str s => s
  | _ => ""
  end.

Definition parseCronExpression (fuel : nat) (cronString : value) : M parsed :=
  if negb (ToBoolean cronString) || negb (typeof cronString =? "string")%string
  then throw CronStringRequired
  else
    let parts := splitWhitespace false (trim (textOf cronString)) in
    if (List.length parts <? 6)%nat then throw InvalidCronExpression
    else
      let commandParts := skipn 5 parts in
      let command := join commandParts " " in
      try_catch
        (minute <- parseField fuel (nth 0 parts "undefined")
                     FIELD_CONFIG.minute.(min) FIELD_CONFIG.minute.(max) ;;
         hour <- parseField fuel (nth 1 parts "undefined")
                   FIELD_CONFIG.hour.(min) FIELD_CONFIG.hour.(max) ;;
         dayOfMonth <- parseField fuel (nth 2 parts "undefined")
                         FIELD_CONFIG.dayOfMonth.(min)
                         FIELD_CONFIG.dayOfMonth.(max) ;;
         month <- parseField fuel (nth 3 parts "undefined")
                    FIELD_CONFIG.month.(min) FIELD_CONFIG.month.(max) ;;
         dayOfWeek <- parseField fuel (nth 4 parts "undefined")
                        FIELD_CONFIG.dayOfWeek.(min)
                        FIELD_CONFIG.dayOfWeek.(max) ;;
         ret {| minute := minute; hour := hour; dayOfMonth := dayOfMonth;
                month := month; dayOfWeek := dayOfWeek;
                command := command |})
        FailedToParse.

(** ** Running the program

    [expand e min max o]: the call [parseField(e, min, max)] ends with
    outcome [o].  [parseSchedule v o] is the same for
    [parseCronExpression(v)]. *)
Definition expand (expression : string) (min max : Z) (o : outcome (list Z))
  : Prop :=
  exists fuel, parseField fuel expression min max = Some o.

Definition parseSchedule (cronString : value) (o : outcome parsed) : Prop :=
  exists fuel, parseCronExpression fuel cronString = Some o.

Definition raises {A} (run : outcome A -> Prop) : Prop :=
  exists e, run (Throw e).

(** ** Vocabulary of the statements

    [stepSequence start end_ step] lists [start], [start + step],
    [start + 2 * step], ... as long as the value is at most [end_];
    [rangeCount] is the number of these values. *)
Definition rangeCount (start end_ step : Z) : Z :=
  if end_ <? start then 0 else (end_ - start) / step + 1.

Definition progression (start step : Z) (n : nat) : list Z :=
  map (fun k => start + Z.of_nat k * step) (seq 0 n).

Definition stepSequence (start end_ step : Z) : list Z :=
  progression start step (Z.to_nat (rangeCount start end_ step)).

(** The integers [a], [a + 1], ..., [b]. *)
Definition interval (a b : Z) : list Z := stepSequence a b 1.

Definition inBounds (min max : Z) (v : Z) : Prop := min <= v <= max.

(** The set after the loop has added each part's values in turn. *)
Definition unionInto (values : list Z) (expansions : list (list Z)) : list Z :=
  fold_left (fun vs parsedValues => forEach_add parsedValues vs)
            expansions values.


(** An expression is checked against the bounds when it has no step, or
    when the base of its step is [*]. *)
Definition boundsChecked (expression : string) : Prop :=
  includes expression "/" = false \/ nth 0 (split expression "/") "" = "*".

(** The list expression with each element stripped of the white space
    around it. *)
Definition stripElements (expression : string) : string :=
  join (map trim (split expression ",")) ",".

(** ** The formatter and the command line

    [formatOutput] of parser.js and [main] of cron-parser.js. *)

Definition digitChar (d : Z) : ascii := ascii_of_N (Z.to_N (48 + d)).

(** The decimal digits of [n >= 0] in front of [acc], the last digit
    first; [fuel] bounds the number of digits. *)
Fixpoint decimalDigits (fuel : nat) (n : Z) (acc : string) : string :=
  match fuel with
  | O => acc
  | S fuel' =>
      let acc' := String (digitChar (n mod 10)) acc in
      if n <? 10 then acc' else decimalDigits fuel' (n / 10) acc'
  end.

(** [String(n)] for an integer [n], as [join] and template strings apply
    it: the decimal digits, after a minus sign when [n] is negative.
    This is what the program prints below 10^21 in magnitude; from there
    on it prints the exponent form. *)
Definition numberToString (n : Z) : string :=
  if n <? 0
  then String "-" (decimalDigits (S (Z.to_nat (Z.log2 (- n)))) (- n) "")
  else decimalDigits (S (Z.to_nat (Z.log2 n))) n "".

Fixpoint spaces (n : nat) : string :=
  match n with
  | O => ""
  | S n' => String " " (spaces n')
  end.

(** [s.padEnd(targetLength)] *)
Definition padEnd (s : string) (targetLength : nat) : string :=
  (s ++ spaces (targetLength - String.length s))%string.

(** [values.join(sep)] on an array of numbers. *)
Definition joinNumbers (values : list Z) (sep : string) : string :=
  join (map numberToString values) sep.

Definition newline : ascii := "010".

Definition formatLines (p : parsed) : list string :=
  let fieldWidth := 14%nat in
  [ (padEnd "minute" fieldWidth ++ joinNumbers p.(minute) " ")%string;
    (padEnd "hour" fieldWidth ++ joinNumbers p.(hour) " ")%string;
    (padEnd "day of month" fieldWidth ++ joinNumbers p.(dayOfMonth) " ")%string;
    (padEnd "month" fieldWidth ++ joinNumbers p.(month) " ")%string;
    (padEnd "day of week" fieldWidth ++ joinNumbers p.(dayOfWeek) " ")%string;
    (padEnd "command" fieldWidth ++ p.(command))%string ].

Definition formatOutput (p : parsed) : string :=
  join (formatLines p) (String newline "").

(** [error.message], one template per [throw] site. *)
Fixpoint message (e : ParseError) : string :=
  match e with
  | InvalidValue expression min max =>
      "Invalid value: " ++ expression ++ ". Must be between "
        ++ numberToString min ++ " and " ++ numberToString max
  | InvalidStepValue step => "Invalid step value: " ++ step
  | InvalidStepRange range => "Invalid range in step expression: " ++ range
  | InvalidStepStart range =>
      "Invalid start value in step expression: " ++ range
  | InvalidRange expression => "Invalid range: " ++ expression
  | RangeOutOfBounds expression min max =>
      "Range " ++ expression ++ " is out of bounds ("
        ++ numberToString min ++ "-" ++ numberToString max ++ ")"
  | CronStringRequired => "Cron string is required"
  | InvalidCronExpression =>
      "Invalid cron expression. Expected format: "
        ++ "minute hour day_of_month month day_of_week command"
  | FailedToParse cause => "Failed to parse cron expression: " ++ message cause
  end%string.

(** What a run of the command line leaves behind: the lines written by
    [console.log] and by [console.error], and the argument of
    [process.exit] when it was called. *)
Record execution : Type := {
  stdout : list string;
  stderr : list string;
  exitCode : option Z
}.

Definition doubleQuote : string := String "034" "".

Definition usage : list string :=
  [ "Error: No cron expression provided";
    ("Usage: node cron-parser.js " ++ doubleQuote
       ++ "minute hour day_of_month month day_of_week command"
       ++ doubleQuote)%string;
    ("Example: node cron-parser.js " ++ doubleQuote
       ++ "*/15 0 1,15 * 1-5 /usr/bin/find" ++ doubleQuote)%string ].

(** [main()], with [process.argv] as [argv]. *)
Definition main (fuel : nat) (argv : list string) : option execution :=
  let args := skipn 2 argv in
  if (List.length args =? 0)%nat
  then Some {| stdout := []; stderr := usage; exitCode := Some 1 |}
  else
    let cronString := nth 0 args "undefined" in
    match parseCronExpression fuel (Str cronString) with
    | None => None
    | Some (Ok parsed) =>
        Some {| stdout := [formatOutput parsed]; stderr := [];
                exitCode := None |}
    | Some (Throw error) =>
        Some {| stdout := [];
                stderr := [("Error: " ++ message error)%string];
                exitCode := Some 1 |}
    end.

(** [runs argv x]: the command line, started with [argv], ends as [x]. *)
Definition runs (argv : list string) (x : execution) : Prop :=
  exists fuel, main fuel argv = Some x.

(** The errors of the field expander: the six [throw] sites of
    [parseField], [parseStepValue] and [parseRange]. *)
Definition fieldError (e : ParseError) : Prop :=
  match e with
  | CronStringRequired | InvalidCronExpression | FailedToParse _ => False
  | _ => True
  end.

(** The bounds of the field at position [k] of a schedule. *)
Definition fieldAt (k : nat) : field_config :=
  nth k FIELD_CONFIG.all FIELD_CONFIG.minute.

(** A string without white space characters. *)
Definition noWhitespace (s : string) : Prop :=
  forall c, isWhiteSpace c = true -> includes s c = false.

(** The text of a schedule with single spaces between its tokens. *)
Definition normalised (text : string) : string :=
  join (splitWhitespace false (trim text)) " ".

(** ** Where the model is exact

    JavaScript numbers are doubles: an integer is held exactly when it is
    a safe integer, below 2^53 in magnitude, and sums and comparisons of
    such integers are the ones of [Z].  An array holds [arrayCapacity]
    elements without an engine error (the language allows 2^32 - 1
    elements, engines stop earlier).  A loop of [generateRange] within
    these limits runs in the program as it runs here. *)
Definition safeInteger (z : Z) : Prop := - 2 ^ 53 < z < 2 ^ 53.

Definition arrayCapacity : Z := 2 ^ 24.


(** Bounds of a field whose whole range fits in an array. *)
Definition fieldWithinLimits (min max : Z) : Prop :=
  safeInteger min /\ safeInteger max /\ max - min < arrayCapacity.



(** A string of white space only. *)
Fixpoint whitespaceOnly (s : string) : bool :=
  match s with
  | EmptyString => true
  | String c s' => isWhiteSpace c && whitespaceOnly s'
  end.

(** A list element with white space on both sides. *)
Definition padElement (p : string * string * string) : string :=
  let '(before, element, after) := p in (before ++ element ++ after)%string.

Definition coreElement (p : string * string * string) : string :=
  let '(_, element, _) := p in element.

(** A list element and the white space around it: the white space is
    white space only, the element holds no [,] and no [/]. *)
Definition paddedElement (p : string * string * string) : Prop :=
  let '(before, element, after) := p in
  whitespaceOnly before = true /\ whitespaceOnly after = true /\
  includes element "," = false /\ includes element "/" = false.

(** The five field tokens of a schedule text. *)
Definition fieldTokens (text : string) : list string :=
  firstn 5 (splitWhitespace false (trim text)).

(** ** Tactics *)

(** A branch that throws before any loop or recursive call: no fuel is
    needed. *)
Ltac ends_at_once := exists O; eexists; reflexivity.

(** ** Lemmas on the counting loop *)

Lemma progression_S start step n :
  progression start step (S n) = start :: progression (start + step) step n.
Proof.
  unfold progression. simpl. f_equal; [lia|].
  rewrite <- seq_shift, map_map. apply map_ext. intros k. lia.
Qed.

Lemma progression_length start step n :
  List.length (progression start step n) = n.
Proof.
  unfold progression. now rewrite length_map, length_seq.
Qed.

Section CountingLoop.

(** One loop: its bound and its increment, which is positive at every
    call site of [generateRange]. *)
Variables end_ step : Z.
Hypothesis step_positive : 0 < step.

Lemma rangeCount_nonneg start : 0 <= rangeCount start end_ step.
Proof.
  unfold rangeCount. destruct (end_ <? start) eqn:E; [lia|].
  apply Z.ltb_ge in E.
  assert (0 <= (end_ - start) / step) by (apply Z.div_pos; lia). lia.
Qed.

Lemma rangeCount_next start :
  start <= end_ ->
  rangeCount start end_ step = rangeCount (start + step) end_ step + 1.
Proof.
  intros Hle. unfold rangeCount.
  destruct (end_ <? start) eqn:E1; [apply Z.ltb_lt in E1; lia|].
  destruct (end_ <? start + step) eqn:E2.
  - apply Z.ltb_lt in E2. rewrite Z.div_small; lia.
  - apply Z.ltb_ge in E2.
    replace (end_ - start) with ((end_ - (start + step)) + 1 * step) by lia.
    rewrite Z.div_add by lia. lia.
Qed.

Lemma rangeCount_past start : end_ < start -> rangeCount start end_ step = 0.
Proof.
  intros H. unfold rangeCount. apply Z.ltb_lt in H. now rewrite H.
Qed.

Lemma stepSequence_cons start :
  start <= end_ ->
  stepSequence start end_ step = start :: stepSequence (start + step) end_ step.
Proof.
  intros Hle. unfold stepSequence. rewrite (rangeCount_next start Hle).
  pose proof (rangeCount_nonneg (start + step)).
  rewrite Z2Nat.inj_add by lia. rewrite Nat.add_comm. simpl.
  apply progression_S.
Qed.

Lemma stepSequence_nil start : end_ < start -> stepSequence start end_ step = [].
Proof.
  intros H. unfold stepSequence. now rewrite rangeCount_past.
Qed.

(** What the loop returns, for every amount of fuel. *)
Lemma generateRange_loop_spec fuel : forall i result,
  generateRange_loop fuel i end_ step result =
  if (Z.to_nat (rangeCount i end_ step) <=? fuel)%nat
  then ret (result ++ stepSequence i end_ step)
  else None.
Proof.
  induction fuel as [|fuel IH]; intros i result; simpl;
    destruct (i <=? end_) eqn:E.
  - apply Z.leb_le in E. rewrite (rangeCount_next i E).
    pose proof (rangeCount_nonneg (i + step)).
    destruct (Nat.leb_spec (Z.to_nat (rangeCount (i + step) end_ step + 1)) 0);
      [lia|reflexivity].
  - apply Z.leb_gt in E. rewrite rangeCount_past, stepSequence_nil by lia.
    simpl. now rewrite app_nil_r.
  - apply Z.leb_le in E. rewrite IH.
    rewrite (rangeCount_next i E), (stepSequence_cons i E).
    pose proof (rangeCount_nonneg (i + step)).
    rewrite <- app_assoc. simpl.
    replace (Z.to_nat (rangeCount (i + step) end_ step + 1))
      with (S (Z.to_nat (rangeCount (i + step) end_ step))) by lia.
    reflexivity.
  - apply Z.leb_gt in E. rewrite rangeCount_past, stepSequence_nil by lia.
    simpl. now rewrite app_nil_r.
Qed.

Lemma generateRange_spec fuel start :
  generateRange fuel start end_ step =
  if (Z.to_nat (rangeCount start end_ step) <=? fuel)%nat
  then ret (stepSequence start end_ step)
  else None.
Proof.
  unfold generateRange. now rewrite generateRange_loop_spec.
Qed.

Lemma generateRange_returns fuel start r :
  generateRange fuel start end_ step = Some (Ok r) ->
  r = stepSequence start end_ step.
Proof.
  rewrite generateRange_spec.
  destruct (_ <=? _)%nat; [|discriminate]. unfold ret. congruence.
Qed.

Lemma generateRange_enough fuel start :
  (Z.to_nat (rangeCount start end_ step) <= fuel)%nat ->
  generateRange fuel start end_ step = ret (stepSequence start end_ step).
Proof.
  intros Hf. rewrite generateRange_spec.
  apply Nat.leb_le in Hf. now rewrite Hf.
Qed.

(** Induction along the loop: the sequence is empty once [start] has
    passed [end_], and starts with [start] before that. *)
Lemma stepSequence_ind (P : Z -> list Z -> Prop) :
  (forall start, end_ < start -> P start []) ->
  (forall start, start <= end_ ->
     P (start + step) (stepSequence (start + step) end_ step) ->
     P start (start :: stepSequence (start + step) end_ step)) ->
  forall start, P start (stepSequence start end_ step).
Proof.
  intros Hnil Hcons start.
  remember (Z.to_nat (rangeCount start end_ step)) as n eqn:Hn.
  revert start Hn. induction n as [|n IH]; intros start Hn;
    destruct (Z_lt_le_dec end_ start) as [H|H].
  - rewrite stepSequence_nil by assumption. now apply Hnil.
  - rewrite (rangeCount_next start H) in Hn.
    pose proof (rangeCount_nonneg (start + step)). lia.
  - rewrite rangeCount_past in Hn by assumption. discriminate.
  - rewrite (stepSequence_cons start H). apply Hcons; [assumption|].
    apply IH. rewrite (rangeCount_next start H) in Hn.
    pose proof (rangeCount_nonneg (start + step)). lia.
Qed.

Lemma stepSequence_In start v :
  In v (stepSequence start end_ step) <->
  exists k, 0 <= k /\ v = start + k * step /\ v <= end_.
Proof.
  revert start.
  apply (stepSequence_ind
           (fun start l => In v l <->
              exists k, 0 <= k /\ v = start + k * step /\ v <= end_)).
  - intros start H. split; [intros []|]. intros (k & Hk & -> & Hle). nia.
  - intros start Hle IH. simpl. rewrite IH. split.
    + intros [<- | (k & Hk & -> & Hv)].
      * exists 0. lia.
      * exists (k + 1). lia.
    + intros (k & Hk & -> & Hv).
      destruct (Z.eq_dec k 0) as [->|Hk0]; [left; lia|].
      right. exists (k - 1). lia.
Qed.

Lemma stepSequence_bounds start :
  Forall (inBounds start end_) (stepSequence start end_ step).
Proof.
  apply Forall_forall. intros v Hv. apply stepSequence_In in Hv.
  destruct Hv as (k & Hk & -> & Hle). unfold inBounds. nia.
Qed.

Lemma stepSequence_sorted start :
  StronglySorted Z.lt (stepSequence start end_ step).
Proof.
  revert start. apply (stepSequence_ind (fun _ l => StronglySorted Z.lt l)).
  - intros. constructor.
  - intros start Hle IH. constructor; [assumption|].
    apply Forall_forall. intros v Hv. apply stepSequence_In in Hv.
    destruct Hv as (k & Hk & -> & _). nia.
Qed.

Lemma stepSequence_nonempty start :
  start <= end_ -> stepSequence start end_ step <> [].
Proof.
  intros Hle. now rewrite stepSequence_cons.
Qed.

End CountingLoop.

Lemma interval_length a b :
  a <= b -> Z.of_nat (List.length (interval a b)) = b - a + 1.
Proof.
  intros H. unfold interval, stepSequence. rewrite progression_length.
  unfold rangeCount. destruct (b <? a) eqn:E; [apply Z.ltb_lt in E; lia|].
  rewrite Z.div_1_r. lia.
Qed.

Lemma interval_In a b v : In v (interval a b) <-> a <= v <= b.
Proof.
  unfold interval. rewrite stepSequence_In by lia. split.
  - intros (k & Hk & -> & Hle). lia.
  - intros [H1 H2]. exists (v - a). lia.
Qed.

(** ** Fuel

    More fuel never changes an outcome. *)
Lemma generateRange_loop_mono fuel :
  forall fuel' i end_ step result o,
    (fuel <= fuel')%nat ->
    generateRange_loop fuel i end_ step result = Some o ->
    generateRange_loop fuel' i end_ step result = Some o.
Proof.
  induction fuel as [|fuel IH]; intros fuel' i end_ step result o Hle H.
  - simpl in H. destruct fuel'; simpl; destruct (i <=? end_); try discriminate;
      assumption.
  - destruct fuel' as [|fuel']; [lia|]. simpl in *.
    destruct (i <=? end_); [|assumption]. apply IH; [lia|assumption].
Qed.

Lemma generateRange_mono fuel fuel' start end_ step o :
  (fuel <= fuel')%nat ->
  generateRange fuel start end_ step = Some o ->
  generateRange fuel' start end_ step = Some o.
Proof. apply generateRange_loop_mono. Qed.

Lemma parseStepValue_mono fuel fuel' expression min max o :
  (fuel <= fuel')%nat ->
  parseStepValue fuel expression min max = Some o ->
  parseStepValue fuel' expression min max = Some o.
Proof.
  intros Hle. unfold parseStepValue.
  destruct (parseInt (nth 1 _ _)) as [stepValue|]; [|trivial].
  destruct (stepValue <=? 0); [trivial|].
  destruct (negb _); [|now apply generateRange_mono].
  destruct (includes _ _).
  - destruct (nth 0 _ _); [|trivial].
    destruct (nth 1 _ _); [|trivial]. now apply generateRange_mono.
  - destruct (parseInt _); [|trivial]. now apply generateRange_mono.
Qed.

Lemma parseRange_mono fuel fuel' expression min max o :
  (fuel <= fuel')%nat ->
  parseRange fuel expression min max = Some o ->
  parseRange fuel' expression min max = Some o.
Proof.
  intros Hle. unfold parseRange.
  destruct (nth 0 _ _); [|trivial].
  destruct (nth 1 _ _); [|trivial].
  destruct (_ || _); [trivial|]. now apply generateRange_mono.
Qed.

Lemma parseList_loop_mono (self self' : string -> M (list Z)) :
  (forall part o, self part = Some o -> self' part = Some o) ->
  forall parts values o,
    parseList_loop self parts values = Some o ->
    parseList_loop self' parts values = Some o.
Proof.
  intros Hself. induction parts as [|part rest IH]; intros values o; simpl.
  - trivial.
  - unfold bind. destruct (self (trim part)) as [[r|e]|] eqn:E.
    + rewrite (Hself _ _ E). apply IH.
    + rewrite (Hself _ _ E). trivial.
    + discriminate.
Qed.

(** The two recursive functions, one call unfolded. *)
Lemma parseField_S fuel expression min max :
  parseField (S fuel) expression min max =
  if (expression =? "*")%string then generateRange fuel min max 1
  else if includes expression "/" then parseStepValue fuel expression min max
  else if includes expression "-" && negb (includes expression ",") then
    parseRange fuel expression min max
  else if includes expression "," then parseList fuel expression min max
  else
    match parseInt expression with
    | None => throw (InvalidValue expression min max)
    | Some value =>
        if (value <? min) || (value >? max)
        then throw (InvalidValue expression min max)
        else ret [value]
    end.
Proof. reflexivity. Qed.

Lemma parseList_S fuel expression min max :
  parseList (S fuel) expression min max =
  (values <- parseList_loop (fun part => parseField fuel part min max)
                            (split expression ",") [] ;;
   ret (sort ascending values)).
Proof. reflexivity. Qed.

Lemma parseField_parseList_mono fuel :
  (forall fuel' expression min max o,
      (fuel <= fuel')%nat ->
      parseField fuel expression min max = Some o ->
      parseField fuel' expression min max = Some o) /\
  (forall fuel' expression min max o,
      (fuel <= fuel')%nat ->
      parseList fuel expression min max = Some o ->
      parseList fuel' expression min max = Some o).
Proof.
  induction fuel as [|fuel [IHf IHl]]; (split; [|]);
    intros fuel' expression min max o Hle H; try discriminate;
    (destruct fuel' as [|fuel']; [lia|]).
  - rewrite parseField_S in *.
    destruct (expression =? "*")%string;
      [revert H; apply generateRange_mono; lia|].
    destruct (includes expression "/");
      [revert H; apply parseStepValue_mono; lia|].
    destruct (includes expression "-" && negb (includes expression ","));
      [revert H; apply parseRange_mono; lia|].
    destruct (includes expression ","); [|assumption].
    apply IHl; [lia|assumption].
  - rewrite parseList_S in *. unfold bind in *.
    destruct (parseList_loop (fun part => parseField fuel part min max) _ _)
      as [o'|] eqn:E; [|discriminate].
    erewrite parseList_loop_mono; [eassumption| |eassumption].
    intros part o1 Hp. simpl in *. apply IHf; [lia|assumption].
Qed.

Lemma parseField_mono fuel fuel' expression min max o :
  (fuel <= fuel')%nat ->
  parseField fuel expression min max = Some o ->
  parseField fuel' expression min max = Some o.
Proof. apply parseField_parseList_mono. Qed.

(** An expression has one outcome. *)
Lemma expand_deterministic expression min max o1 o2 :
  expand expression min max o1 -> expand expression min max o2 -> o1 = o2.
Proof.
  intros [f1 H1] [f2 H2].
  apply (parseField_mono f1 (Nat.max f1 f2)) in H1; [|lia].
  apply (parseField_mono f2 (Nat.max f1 f2)) in H2; [|lia].
  congruence.
Qed.

(** ** Lemmas on strings *)

Lemma split_not_nil s sep : split s sep <> [].
Proof.
  destruct s as [|x s]; simpl; [discriminate|].
  destruct (Ascii.eqb x sep); [discriminate|].
  destruct (split s sep); discriminate.
Qed.

(** No piece of a split holds the separator. *)
Lemma split_pieces_free s sep :
  Forall (fun piece => includes piece sep = false) (split s sep).
Proof.
  induction s as [|x s IH]; simpl.
  - now constructor.
  - destruct (Ascii.eqb x sep) eqn:E.
    + now constructor.
    + destruct (split s sep) as [|piece pieces].
      * constructor; [simpl; now rewrite E|constructor].
      * inversion IH; subst. constructor; [simpl; now rewrite E|assumption].
Qed.

(** A character of a piece is a character of the string. *)
Lemma split_pieces_includes s sep c :
  Forall (fun piece => includes piece c = true -> includes s c = true)
         (split s sep).
Proof.
  induction s as [|x s IH]; simpl.
  - constructor; [trivial|constructor].
  - destruct (Ascii.eqb x sep) eqn:E.
    + constructor; [discriminate|].
      eapply Forall_impl; [|exact IH]. simpl. intros p Hp H.
      rewrite (Hp H). apply orb_true_r.
    + destruct (split s sep) as [|piece pieces].
      * constructor; [|constructor]. simpl. rewrite orb_false_r.
        now intros ->.
      * inversion IH as [|? ? Hpiece Hpieces]; subst. constructor.
        -- simpl. destruct (Ascii.eqb x c); [trivial|]. simpl. exact Hpiece.
        -- eapply Forall_impl; [|exact Hpieces]. simpl. intros p Hp H.
           rewrite (Hp H). apply orb_true_r.
Qed.

Lemma includes_trimStart s c :
  includes (trimStart s) c = true -> includes s c = true.
Proof.
  induction s as [|x s IH]; simpl; [trivial|].
  destruct (isWhiteSpace x); [|trivial].
  intros H. rewrite (IH H). apply orb_true_r.
Qed.

Lemma includes_trimEnd s c :
  includes (trimEnd s) c = true -> includes s c = true.
Proof.
  induction s as [|x s IH]; simpl; [trivial|].
  destruct (trimEnd s) as [|y t].
  - destruct (isWhiteSpace x); simpl; [discriminate|].
    rewrite orb_false_r. intros ->. reflexivity.
  - simpl in *. destruct (Ascii.eqb x c); [trivial|]. simpl. exact IH.
Qed.

Lemma includes_trim s c : includes (trim s) c = true -> includes s c = true.
Proof.
  intros H. apply includes_trimStart, includes_trimEnd. exact H.
Qed.

Lemma includes_trim_false s c :
  includes s c = false -> includes (trim s) c = false.
Proof.
  intros H. destruct (includes (trim s) c) eqn:E; [|reflexivity].
  apply includes_trim in E. congruence.
Qed.

(** The pieces of a list expression hold no comma, trimmed or not. *)
Lemma list_parts_no_comma expression part :
  In part (split expression ",") -> includes (trim part) "," = false.
Proof.
  intros H. apply includes_trim_false.
  exact (proj1 (Forall_forall _ _) (split_pieces_free expression ",") _ H).
Qed.

Lemma list_parts_no_slash expression part :
  includes expression "/" = false ->
  In part (split expression ",") -> includes (trim part) "/" = false.
Proof.
  intros He H. apply includes_trim_false.
  destruct (includes part "/") eqn:E; [|reflexivity].
  pose proof (proj1 (Forall_forall _ _)
                (split_pieces_includes expression "," "/") _ H E).
  congruence.
Qed.

Lemma trimStart_trimEnd s :
  trimStart (trimEnd s) = trimEnd (trimStart s).
Proof.
  induction s as [|x s IH]; simpl; [reflexivity|].
  destruct (isWhiteSpace x) eqn:W.
  - rewrite <- IH. destruct (trimEnd s); simpl; rewrite ?W; reflexivity.
  - simpl. destruct (trimEnd s); simpl; rewrite ?W; simpl; rewrite ?W;
      reflexivity.
Qed.

Lemma trimStart_idem s : trimStart (trimStart s) = trimStart s.
Proof.
  induction s as [|x s IH]; simpl; [reflexivity|].
  destruct (isWhiteSpace x) eqn:W; [exact IH|]. simpl. now rewrite W.
Qed.

Lemma trimEnd_cons x s :
  trimEnd (String x s) =
  match trimEnd s with
  | EmptyString => if isWhiteSpace x then EmptyString else String x EmptyString
  | t => String x t
  end.
Proof. reflexivity. Qed.

Lemma trimEnd_idem s : trimEnd (trimEnd s) = trimEnd s.
Proof.
  induction s as [|x s IH]; [reflexivity|].
  rewrite trimEnd_cons. destruct (trimEnd s) as [|y t] eqn:E.
  - destruct (isWhiteSpace x) eqn:W; [reflexivity|].
    rewrite trimEnd_cons. simpl. now rewrite W.
  - rewrite trimEnd_cons, IH. reflexivity.
Qed.

Lemma trim_idem s : trim (trim s) = trim s.
Proof.
  unfold trim.
  now rewrite trimStart_trimEnd, trimStart_idem, trimEnd_idem.
Qed.

Lemma includes_append s t c :
  includes (s ++ t)%string c = includes s c || includes t c.
Proof.
  induction s as [|x s IH]; simpl; [reflexivity|].
  now rewrite IH, orb_assoc.
Qed.

Lemma split_free s sep : includes s sep = false -> split s sep = [s].
Proof.
  induction s as [|x s IH]; simpl; [reflexivity|].
  intros H. apply orb_false_iff in H. destruct H as [Hx Hs].
  now rewrite Hx, (IH Hs).
Qed.

Lemma split_append_sep p s sep :
  includes p sep = false ->
  split (p ++ String sep s)%string sep = p :: split s sep.
Proof.
  induction p as [|x p IH]; simpl.
  - intros _. now rewrite Ascii.eqb_refl.
  - intros H. apply orb_false_iff in H. destruct H as [Hx Hp].
    now rewrite Hx, (IH Hp).
Qed.

(** Splitting undoes joining, for pieces free of the separator. *)
Lemma split_join parts sep :
  parts <> [] ->
  Forall (fun piece => includes piece sep = false) parts ->
  split (join parts (String sep EmptyString)) sep = parts.
Proof.
  unfold join. induction parts as [|p rest IH]; [congruence|].
  intros _ H. inversion H as [|? ? Hp Hrest]; subst.
  destruct rest as [|q rest].
  - simpl. now apply split_free.
  - change (String.concat (String sep "") (p :: q :: rest))
      with (p ++ String sep (String.concat (String sep "") (q :: rest)))%string.
    rewrite split_append_sep by assumption. f_equal.
    apply IH; [discriminate|assumption].
Qed.

Lemma includes_join_other parts sep c :
  Ascii.eqb sep c = false ->
  Forall (fun piece => includes piece c = false) parts ->
  includes (join parts (String sep EmptyString)) c = false.
Proof.
  intros Hc. unfold join. induction parts as [|p rest IH]; [reflexivity|].
  intros H. inversion H as [|? ? Hp Hrest]; subst.
  destruct rest as [|q rest]; [exact Hp|].
  change (String.concat (String sep "") (p :: q :: rest))
    with (p ++ String sep (String.concat (String sep "") (q :: rest)))%string.
  rewrite includes_append, Hp. simpl. rewrite Hc. simpl. now apply IH.
Qed.

Lemma includes_join_sep p q rest sep :
  includes (join (p :: q :: rest) (String sep EmptyString)) sep = true.
Proof.
  unfold join.
  change (String.concat (String sep "") (p :: q :: rest))
    with (p ++ String sep (String.concat (String sep "") (q :: rest)))%string.
  rewrite includes_append. simpl. rewrite Ascii.eqb_refl. simpl.
  apply orb_true_r.
Qed.

(** A string that holds the separator splits into two pieces or more. *)
Lemma split_two s sep :
  includes s sep = true ->
  exists p q rest, split s sep = p :: q :: rest.
Proof.
  induction s as [|x s IH]; simpl; [discriminate|].
  destruct (Ascii.eqb x sep) eqn:E.
  - intros _. destruct (split s sep) as [|q rest] eqn:Es.
    + now destruct (split_not_nil s sep).
    + now exists EmptyString, q, rest.
  - simpl. intros H. destruct (IH H) as (p & q & rest & ->).
    now exists (String x p), q, rest.
Qed.

Lemma star_no_special c :
  Ascii.eqb "*" c = false -> forall s, (s =? "*")%string = true ->
  includes s c = false.
Proof.
  intros Hc s H. apply String.eqb_eq in H. subst. unfold includes.
  now rewrite Hc.
Qed.

(** ** Lemmas on the set and on sorting *)

Lemma Set_add_In values v w : In w (Set_add values v) <-> In w values \/ w = v.
Proof.
  unfold Set_add. destruct (existsb (Z.eqb v) values) eqn:E.
  - split; [now left|]. intros [H | ->]; [assumption|].
    apply existsb_exists in E. destruct E as (u & Hu & Huv).
    apply Z.eqb_eq in Huv. now subst.
  - rewrite in_app_iff. simpl. intuition.
Qed.

Lemma Set_add_NoDup values v : NoDup values -> NoDup (Set_add values v).
Proof.
  intros H. unfold Set_add. destruct (existsb (Z.eqb v) values) eqn:E.
  - assumption.
  - apply NoDup_app; [assumption|repeat constructor; intros []|].
    intros w Hw [E'|[]]. subst w.
    assert (existsb (Z.eqb v) values = true); [|congruence].
    apply existsb_exists. exists v. split; [assumption|apply Z.eqb_refl].
Qed.

Lemma forEach_add_In parsedValues : forall values w,
  In w (forEach_add parsedValues values) <-> In w values \/ In w parsedValues.
Proof.
  unfold forEach_add.
  induction parsedValues as [|v rest IH]; intros values w; simpl.
  - intuition.
  - rewrite IH, Set_add_In. intuition.
Qed.

Lemma forEach_add_NoDup parsedValues : forall values,
  NoDup values -> NoDup (forEach_add parsedValues values).
Proof.
  unfold forEach_add.
  induction parsedValues as [|v rest IH]; intros values H; simpl.
  - assumption.
  - apply IH. now apply Set_add_NoDup.
Qed.

Lemma sort_insert_In x sorted v :
  In v (sort_insert ascending x sorted) <-> v = x \/ In v sorted.
Proof.
  induction sorted as [|y rest IH]; simpl.
  - intuition.
  - destruct (ascending x y <? 0); simpl; [intuition|].
    rewrite IH. intuition.
Qed.

Lemma sort_In array v : In v (sort ascending array) <-> In v array.
Proof.
  unfold sort. induction array as [|x rest IH]; simpl; [reflexivity|].
  rewrite sort_insert_In, IH. intuition.
Qed.

Lemma sort_insert_sorted x sorted :
  StronglySorted Z.lt sorted -> ~ In x sorted ->
  StronglySorted Z.lt (sort_insert ascending x sorted).
Proof.
  induction sorted as [|y rest IH]; simpl; intros Hs Hx.
  - repeat constructor.
  - inversion Hs as [|? ? Hrest Hy]; subst.
    unfold ascending at 1. destruct (x - y <? 0) eqn:E.
    + apply Z.ltb_lt in E. constructor; [assumption|].
      constructor; [lia|]. eapply Forall_impl; [|exact Hy]. simpl. lia.
    + apply Z.ltb_ge in E. constructor.
      * apply IH; [assumption|]. intros H. apply Hx. now right.
      * apply Forall_forall. intros v Hv. apply sort_insert_In in Hv.
        destruct Hv as [-> | Hv]; [|exact (proj1 (Forall_forall _ _) Hy _ Hv)].
        assert (x <> y) by (intros ->; apply Hx; now left). lia.
Qed.

Lemma sort_sorted array :
  NoDup array -> StronglySorted Z.lt (sort ascending array).
Proof.
  unfold sort. induction array as [|x rest IH]; simpl; intros H.
  - constructor.
  - inversion H; subst. apply sort_insert_sorted; [now apply IH|].
    fold (sort ascending rest). now rewrite sort_In.
Qed.

(** Two strictly ascending lists with the same elements are equal. *)
Lemma sorted_unique l1 : forall l2,
  StronglySorted Z.lt l1 -> StronglySorted Z.lt l2 ->
  (forall v, In v l1 <-> In v l2) -> l1 = l2.
Proof.
  induction l1 as [|x l1 IH]; intros l2 H1 H2 Hin.
  - destruct l2 as [|y l2]; [reflexivity|].
    destruct (proj2 (Hin y) (or_introl eq_refl)).
  - destruct l2 as [|y l2]; [destruct (proj1 (Hin x) (or_introl eq_refl))|].
    inversion H1 as [|? ? H1' Hx]; inversion H2 as [|? ? H2' Hy]; subst.
    rewrite Forall_forall in Hx, Hy.
    assert (x = y).
    { destruct (proj1 (Hin x) (or_introl eq_refl)) as [E|E]; [auto|].
      destruct (proj2 (Hin y) (or_introl eq_refl)) as [E'|E']; [auto|].
      specialize (Hx _ E'). specialize (Hy _ E). lia. }
    subst y. f_equal. apply IH; [assumption..|].
    intros v. split; intros Hv.
    + destruct (proj1 (Hin v) (or_intror Hv)) as [<-|E]; [|assumption].
      specialize (Hx _ Hv). lia.
    + destruct (proj2 (Hin v) (or_intror Hv)) as [<-|E]; [|assumption].
      specialize (Hy _ Hv). lia.
Qed.

(** A strictly ascending list inside [min, max] has at most
    [max - min + 1] elements. *)
Lemma sorted_length_bound l : forall min max,
  StronglySorted Z.lt l -> Forall (inBounds min max) l ->
  Z.of_nat (List.length l) <= Z.max 0 (max - min + 1).
Proof.
  induction l as [|x l IH]; intros min max Hs Hb; simpl List.length.
  - lia.
  - inversion Hs as [|? ? Hs' Hx]; inversion Hb as [|? ? Hbx Hb']; subst.
    unfold inBounds in Hbx.
    assert (Hl : Forall (inBounds (x + 1) max) l).
    { rewrite Forall_forall in *. intros v Hv.
      specialize (Hx _ Hv). specialize (Hb' _ Hv). unfold inBounds in *. lia. }
    specialize (IH (x + 1) max Hs' Hl). lia.
Qed.

(** ** Lemmas on the list rule *)

Lemma unionInto_In expansions : forall values v,
  In v (unionInto values expansions) <-> In v values \/ In v (List.concat expansions).
Proof.
  unfold unionInto.
  induction expansions as [|r rest IH]; intros values v; simpl.
  - intuition.
  - rewrite IH, forEach_add_In, in_app_iff. intuition.
Qed.

Lemma unionInto_NoDup expansions : forall values,
  NoDup values -> NoDup (unionInto values expansions).
Proof.
  unfold unionInto.
  induction expansions as [|r rest IH]; intros values H; simpl.
  - assumption.
  - apply IH. now apply forEach_add_NoDup.
Qed.

Lemma parseList_loop_Ok self parts : forall values r,
  parseList_loop self parts values = Some (Ok r) <->
  exists expansions,
    Forall2 (fun part parsedValues => self (trim part) = Some (Ok parsedValues))
            parts expansions /\
    r = unionInto values expansions.
Proof.
  induction parts as [|part rest IH]; intros values r; simpl.
  - unfold ret. split.
    + intros H. exists []. split; [constructor|]. simpl. congruence.
    + intros (expansions & HF & ->). inversion HF. reflexivity.
  - unfold bind. split.
    + destruct (self (trim part)) as [[parsedValues|e]|] eqn:E;
        try discriminate.
      intros H. apply IH in H. destruct H as (expansions & HF & ->).
      exists (parsedValues :: expansions). split; [now constructor|reflexivity].
    + intros (expansions & HF & ->).
      inversion HF as [|? parsedValues ? rest' Hp Hrest]; subst.
      rewrite Hp. apply IH. now exists rest'.
Qed.

Lemma parseList_loop_Throw self parts : forall values e,
  parseList_loop self parts values = Some (Throw e) <->
  exists done part rest expansions,
    parts = done ++ part :: rest /\
    Forall2 (fun part parsedValues => self (trim part) = Some (Ok parsedValues))
            done expansions /\
    self (trim part) = Some (Throw e).
Proof.
  induction parts as [|part rest IH]; intros values e; simpl.
  - unfold ret. split; [discriminate|].
    intros (done & p & rest & expansions & H & _). now destruct done.
  - unfold bind. split.
    + destruct (self (trim part)) as [[parsedValues|e']|] eqn:E;
        try discriminate.
      * intros H. apply IH in H.
        destruct H as (done & p & rest' & expansions & -> & HF & Hp).
        exists (part :: done), p, rest', (parsedValues :: expansions).
        repeat split; [now constructor|assumption].
      * intros H. exists [], part, rest, []. repeat split; [constructor|].
        congruence.
    + intros (done & p & rest' & expansions & Hparts & HF & Hp).
      destruct done as [|d done]; simpl in Hparts; inversion Hparts; subst.
      * now rewrite Hp.
      * inversion HF as [|? parsedValues ? expansions' Hd HF']; subst.
        rewrite Hd. apply IH.
        now exists done, p, rest', expansions'.
Qed.

Lemma not_star_of_includes s c :
  Ascii.eqb "*" c = false -> includes s c = true -> (s =? "*")%string = false.
Proof.
  intros Hc H. destruct (s =? "*")%string eqn:E; [|reflexivity].
  rewrite (star_no_special c Hc s E) in H. discriminate.
Qed.

(** The dispatch on a list expression, two calls unfolded. *)
Lemma parseField_list fuel expression min max :
  includes expression "," = true -> includes expression "/" = false ->
  parseField (S (S fuel)) expression min max =
  (values <- parseList_loop (fun part => parseField fuel part min max)
                            (split expression ",") [] ;;
   ret (sort ascending values)).
Proof.
  intros Hc Hs. rewrite parseField_S.
  rewrite (not_star_of_includes _ "," eq_refl Hc), Hs, Hc.
  rewrite andb_false_r. apply parseList_S.
Qed.

Lemma expand_list expression min max o :
  includes expression "," = true -> includes expression "/" = false ->
  expand expression min max o <->
  exists fuel,
    (values <- parseList_loop (fun part => parseField fuel part min max)
                              (split expression ",") [] ;;
     ret (sort ascending values)) = Some o.
Proof.
  intros Hc Hs. split.
  - intros [fuel H].
    destruct fuel as [|[|fuel]]; [discriminate| |].
    + rewrite parseField_S in H.
      rewrite (not_star_of_includes _ "," eq_refl Hc), Hs, Hc in H.
      rewrite andb_false_r in H. discriminate.
    + rewrite parseField_list in H by assumption. now exists fuel.
  - intros [fuel H]. exists (S (S fuel)). now rewrite parseField_list.
Qed.

(** Finitely many runs share one amount of fuel. *)
Lemma expansions_share_fuel min max parts : forall expansions,
  Forall2 (fun part parsedValues =>
             expand (trim part) min max (Ok parsedValues)) parts expansions ->
  exists fuel,
    Forall2 (fun part parsedValues =>
               parseField fuel (trim part) min max = Some (Ok parsedValues))
            parts expansions.
Proof.
  induction parts as [|part rest IH]; intros expansions H; inversion H; subst.
  - exists O. constructor.
  - match goal with
    | [ Hp : expand _ _ _ _, Hr : Forall2 _ rest _ |- _ ] =>
        destruct Hp as [f1 Hp]; destruct (IH _ Hr) as [f2 Hr']
    end.
    exists (Nat.max f1 f2). constructor.
    + apply (parseField_mono f1); [lia|assumption].
    + eapply Forall2_impl; [|exact Hr']. simpl. intros p r Hpr.
      apply (parseField_mono f2); [lia|assumption].
Qed.

(** ** Every call ends *)

Lemma parseStepValue_total expression min max :
  exists n o, parseStepValue n expression min max = Some o.
Proof.
  unfold parseStepValue.
  destruct (parseInt (nth 1 _ _)) as [stepValue|]; [|ends_at_once].
  destruct (stepValue <=? 0) eqn:E; [ends_at_once|].
  apply Z.leb_gt in E.
  destruct (negb _).
  - destruct (includes _ _).
    + destruct (nth 0 _ _) as [rangeStart|]; [|ends_at_once].
      destruct (nth 1 _ _) as [rangeEnd|]; [|ends_at_once].
      eexists; eexists. now apply generateRange_enough.
    + destruct (parseInt _) as [start|]; [|ends_at_once].
      eexists; eexists. now apply generateRange_enough.
  - eexists; eexists. now apply generateRange_enough.
Qed.

Lemma parseRange_total expression min max :
  exists n o, parseRange n expression min max = Some o.
Proof.
  unfold parseRange.
  destruct (nth 0 _ _) as [start|]; [|ends_at_once].
  destruct (nth 1 _ _) as [end_|]; [|ends_at_once].
  destruct (_ || _); [ends_at_once|].
  eexists; eexists. apply generateRange_enough; [lia|reflexivity].
Qed.

(** Without a comma the dispatch makes no recursive call. *)
Lemma parseField_atom_total expression min max :
  includes expression "," = false ->
  exists n o, parseField (S n) expression min max = Some o.
Proof.
  intros Hc.
  destruct (expression =? "*")%string eqn:Estar.
  { exists (Z.to_nat (rangeCount min max 1)). eexists.
    rewrite parseField_S, Estar. apply generateRange_enough; [lia|reflexivity]. }
  destruct (includes expression "/") eqn:Eslash.
  { destruct (parseStepValue_total expression min max) as (n & o & H).
    exists n, o. now rewrite parseField_S, Estar, Eslash. }
  destruct (includes expression "-") eqn:Edash.
  { destruct (parseRange_total expression min max) as (n & o & H).
    exists n, o. now rewrite parseField_S, Estar, Eslash, Edash, Hc. }
  exists O. rewrite parseField_S, Estar, Eslash, Edash, Hc. simpl.
  destruct (parseInt expression) as [v|]; [|now eexists].
  destruct (_ || _); now eexists.
Qed.

Lemma parseList_loop_cons self part rest values :
  parseList_loop self (part :: rest) values =
  (parsedValues <- self (trim part) ;;
   parseList_loop self rest (forEach_add parsedValues values)).
Proof. reflexivity. Qed.

Lemma parseList_loop_total min max parts :
  Forall (fun part => includes (trim part) "," = false) parts ->
  forall values, exists n o,
    parseList_loop (fun part => parseField (S n) part min max) parts values
    = Some o.
Proof.
  induction 1 as [|part rest Hpart Hrest IH]; intros values.
  - exists O. now eexists.
  - destruct (parseField_atom_total (trim part) min max Hpart) as (n1 & o1 & H1).
    destruct o1 as [parsedValues|e].
    + destruct (IH (forEach_add parsedValues values)) as (n2 & o2 & H2).
      exists (Nat.max n1 n2), o2. rewrite parseList_loop_cons. unfold bind.
      rewrite (parseField_mono (S n1) (S (Nat.max n1 n2)) _ _ _ _
                 ltac:(lia) H1).
      eapply parseList_loop_mono; [|exact H2].
      intros p o. apply parseField_mono. lia.
    + exists n1, (Throw e). rewrite parseList_loop_cons. unfold bind.
      now rewrite H1.
Qed.

Lemma parseField_total expression min max :
  exists n o, parseField (3 + n) expression min max = Some o.
Proof.
  destruct (includes expression ",") eqn:Hc.
  - destruct (includes expression "/") eqn:Hs.
    + destruct (parseStepValue_total expression min max) as (n & o & H).
      exists n, o. apply (parseField_mono (S n)); [lia|].
      rewrite parseField_S, Hs.
      now rewrite (not_star_of_includes _ "/" eq_refl Hs).
    + destruct (parseList_loop_total min max (split expression ",")) with
        (values := @nil Z) as (n & o & H).
      { apply Forall_forall. intros part. apply list_parts_no_comma. }
      exists n. change (3 + n)%nat with (S (S (S n))).
      rewrite parseField_list by assumption. unfold bind. rewrite H.
      destruct o; now eexists.
  - destruct (parseField_atom_total expression min max Hc) as (n & o & H).
    exists n, o. apply (parseField_mono (S n)); [lia|assumption].
Qed.

Lemma expand_total expression min max : exists o, expand expression min max o.
Proof.
  destruct (parseField_total expression min max) as (n & o & H).
  exists o. now exists (3 + n)%nat.
Qed.

(** ** The dispatch, rule by rule *)

Lemma parseField_step fuel expression min max :
  includes expression "/" = true ->
  parseField (S fuel) expression min max =
  parseStepValue fuel expression min max.
Proof.
  intros H. rewrite parseField_S, H.
  now rewrite (not_star_of_includes _ "/" eq_refl H).
Qed.

Lemma parseField_range fuel expression min max :
  includes expression "-" = true -> includes expression "," = false ->
  includes expression "/" = false ->
  parseField (S fuel) expression min max = parseRange fuel expression min max.
Proof.
  intros Hd Hc Hs. rewrite parseField_S, Hs, Hd, Hc.
  now rewrite (not_star_of_includes _ "-" eq_refl Hd).
Qed.

Lemma not_star_of_free s : includes s "*" = false -> (s =? "*")%string = false.
Proof.
  intros H. destruct (s =? "*")%string eqn:E; [|reflexivity].
  apply String.eqb_eq in E. subst. discriminate.
Qed.

(** With two pieces or more, what [nth] answers out of range is not used. *)
Lemma nth_split_default s sep k d d' :
  includes s sep = true -> (k < 2)%nat ->
  nth k (split s sep) d = nth k (split s sep) d'.
Proof.
  intros H Hk. destruct (split_two s sep H) as (p & q & rest & ->).
  destruct k as [|[|k]]; [reflexivity|reflexivity|lia].
Qed.


(** What the step rule and the range rule return, when they return. *)
Lemma parseStepValue_returns fuel expression min max r :
  parseStepValue fuel expression min max = Some (Ok r) ->
  exists n start end_,
    0 < n /\ r = stepSequence start end_ n /\
    (nth 0 (split expression "/") "undefined" = "*" ->
     start = min /\ end_ = max).
Proof.
  unfold parseStepValue.
  destruct (parseInt (nth 1 _ _)) as [n|]; [|discriminate].
  destruct (n <=? 0) eqn:En; [discriminate|]. apply Z.leb_gt in En.
  destruct (nth 0 (split expression "/") "undefined" =? "*")%string eqn:Eb;
    simpl negb; cbv iota.
  - intros H. apply generateRange_returns in H; [|assumption].
    exists n, min, max. auto.
  - apply String.eqb_neq in Eb.
    destruct (includes _ _).
    + destruct (nth 0 (map parseInt _) NaN) as [a|]; [|discriminate].
      destruct (nth 1 (map parseInt _) NaN) as [b|]; [|discriminate].
      intros H. apply generateRange_returns in H; [|assumption].
      exists n, a, b. split; [assumption|]. split; [assumption|].
      intros Hb. contradiction.
    + destruct (parseInt _) as [s|]; [|discriminate].
      intros H. apply generateRange_returns in H; [|assumption].
      exists n, s, max. split; [assumption|]. split; [assumption|].
      intros Hb. contradiction.
Qed.

Lemma parseRange_returns fuel expression min max r :
  parseRange fuel expression min max = Some (Ok r) ->
  exists a b, min <= a /\ a <= b /\ b <= max /\ r = interval a b.
Proof.
  unfold parseRange.
  destruct (nth 0 _ _) as [a|]; [|discriminate].
  destruct (nth 1 _ _) as [b|]; [|discriminate].
  destruct ((a <? min) || (b >? max) || (a >? b)) eqn:E; [discriminate|].
  intros H. apply generateRange_returns in H; [|lia].
  exists a, b. repeat split; [lia..|assumption].
Qed.

Lemma inBounds_weaken min max a b l :
  min <= a -> b <= max -> Forall (inBounds a b) l -> Forall (inBounds min max) l.
Proof.
  intros Ha Hb. apply Forall_impl. unfold inBounds. lia.
Qed.

Lemma Forall2_in_r_exists {A B} (R : A -> B -> Prop) l1 l2 :
  Forall2 R l1 l2 -> forall b, In b l2 -> exists a, In a l1 /\ R a b.
Proof.
  induction 1 as [|a0 b0 l1 l2 H0 HF IH]; intros b [].
  - subst. exists a0. split; [now left|assumption].
  - destruct (IH b H) as (a & Ha & Hab). exists a. split; [now right|assumption].
Qed.

(** Every returned sequence is strictly ascending; without a step it
    stays inside the bounds, and is not empty when the bounds are not. *)
Lemma parseField_returns fuel :
  forall expression min max r,
    parseField fuel expression min max = Some (Ok r) ->
    StronglySorted Z.lt r /\
    (includes expression "/" = false ->
     Forall (inBounds min max) r /\ (min <= max -> r <> [])).
Proof.
  induction fuel as [fuel IH] using (well_founded_induction lt_wf).
  intros expression min max r H.
  destruct fuel as [|fuel]; [discriminate|]. rewrite parseField_S in H.
  destruct (expression =? "*")%string.
  { apply generateRange_returns in H; [subst r|lia]. split; [|intros _; split].
    - apply stepSequence_sorted. lia.
    - apply stepSequence_bounds. lia.
    - apply stepSequence_nonempty. lia. }
  destruct (includes expression "/") eqn:Es.
  { apply parseStepValue_returns in H.
    destruct H as (n & start & end_ & Hn & -> & _).
    split; [now apply stepSequence_sorted|discriminate]. }
  destruct (includes expression "-" && negb (includes expression ",")).
  { apply parseRange_returns in H. destruct H as (a & b & Ha & Hab & Hb & ->).
    split; [|intros _; split].
    - apply stepSequence_sorted. lia.
    - apply (inBounds_weaken min max a b); [lia..|].
      apply stepSequence_bounds. lia.
    - intros _. apply stepSequence_nonempty; lia. }
  destruct (includes expression ",") eqn:Ec.
  { destruct fuel as [|fuel]; [discriminate|]. rewrite parseList_S in H.
    unfold bind in H.
    destruct (parseList_loop _ _ _) as [[values|e]|] eqn:El; try discriminate.
    injection H as <-.
    apply parseList_loop_Ok in El. destruct El as (expansions & HF & ->).
    assert (Hparts : forall part parsedValues,
               parseField fuel (trim part) min max = Some (Ok parsedValues) ->
               In part (split expression ",") ->
               Forall (inBounds min max) parsedValues /\
               (min <= max -> parsedValues <> [])).
    { intros part parsedValues Hp Hin.
      apply (IH fuel ltac:(lia)) in Hp. apply Hp.
      now apply (list_parts_no_slash expression). }
    split; [|intros _; split].
    - apply sort_sorted, unionInto_NoDup. constructor.
    - apply Forall_forall. intros v Hv.
      apply sort_In, unionInto_In in Hv. destruct Hv as [[]|Hv].
      apply in_concat in Hv. destruct Hv as (parsedValues & Hpv & Hv).
      destruct (Forall2_in_r_exists _ _ _ HF _ Hpv) as (part & Hpart & Hrun).
      destruct (Hparts _ _ Hrun Hpart) as [Hb _].
      exact (proj1 (Forall_forall _ _) Hb _ Hv).
    - intros Hle Hnil.
      destruct (split expression ",") as [|part rest] eqn:Esplit;
        [now destruct (split_not_nil expression ",")|].
      inversion HF as [|? parsedValues ? expansions' Hrun HF']; subst.
      destruct (Hparts _ _ Hrun (or_introl eq_refl)) as [_ Hne].
      destruct parsedValues as [|v vs]; [now apply Hne|].
      assert (Hv : In v (sort ascending
                           (unionInto [] ((v :: vs) :: expansions')))).
      { apply sort_In, unionInto_In. right. simpl. now left. }
      rewrite Hnil in Hv. destruct Hv. }
  destruct (parseInt expression) as [v|]; [|discriminate].
  destruct ((v <? min) || (v >? max)) eqn:E; [discriminate|].
  injection H as <-. split; [|intros _; split].
  - repeat constructor.
  - repeat constructor; unfold inBounds; lia.
  - discriminate.
Qed.

(** ** The claims *)

Lemma expand_returns expression min max r :
  expand expression min max (Ok r) ->
  StronglySorted Z.lt r /\
  (boundsChecked expression ->
   Forall (inBounds min max) r /\ (min <= max -> r <> [])).
Proof.
  intros [fuel H]. split; [exact (proj1 (parseField_returns _ _ _ _ _ H))|].
  intros [Hs|Hb]; [exact (proj2 (parseField_returns _ _ _ _ _ H) Hs)|].
  destruct (includes expression "/") eqn:Hs;
    [|exact (proj2 (parseField_returns _ _ _ _ _ H) Hs)].
  destruct fuel as [|fuel]; [discriminate|].
  rewrite parseField_step in H by assumption.
  apply parseStepValue_returns in H.
  destruct H as (n & start & end_ & Hn & -> & Hstar).
  rewrite (nth_split_default expression "/" 0 _ "" Hs) in Hstar by lia.
  destruct (Hstar Hb) as [-> ->]. split.
  - now apply stepSequence_bounds.
  - intros Hle. now apply stepSequence_nonempty.
Qed.

(** C1, as the program has it.  When the call returns for an expression
    that has no step, or whose step has the base [*], every element is
    within [min, max], and the sequence is not empty if [min <= max].
    (A step on another base is not checked against the bounds.) *)
Theorem checked_expansion_within_bounds expression min max r :
  boundsChecked expression ->
  expand expression min max (Ok r) ->
  Forall (inBounds min max) r /\ (min <= max -> r <> []).
Proof.
  intros Hc H. exact (proj2 (expand_returns _ _ _ _ H) Hc).
Qed.

Lemma checked_expansion_within_bounds_witness :
  boundsChecked "*/15" /\ expand "*/15" 0 59 (Ok [0; 15; 30; 45]) /\
  Forall (inBounds 0 59) [0; 15; 30; 45].
Proof.
  assert (Hc : boundsChecked "*/15") by (right; reflexivity).
  assert (H : expand "*/15" 0 59 (Ok [0; 15; 30; 45]))
    by (exists 10%nat; reflexivity).
  split; [exact Hc|]. split; [exact H|].
  exact (proj1 (checked_expansion_within_bounds "*/15" 0 59 _ Hc H)).
Defined.

(** C1 fails as stated: the step [0-100/50] on the minute bounds returns
    [0, 50, 100], and 100 is above the maximum 59. *)
Lemma step_range_leaves_bounds :
  exists r, expand "0-100/50" 0 59 (Ok r) /\
            ~ (r <> [] /\ Forall (inBounds 0 59) r).
Proof.
  exists [0; 50; 100]. split; [exists 10%nat; reflexivity|].
  intros [_ H]. inversion H as [|? ? _ H1]; subst.
  inversion H1 as [|? ? _ H2]; subst.
  inversion H2 as [|? ? H3 _]; subst. unfold inBounds in H3. lia.
Qed.





(** C4, as the program has it.  For a list expression (a [,], no [/]) the
    call returns the strictly ascending sequence whose elements are those
    of the expansions of the comma-separated elements, each element first
    stripped of the white space around it and then expanded with the same
    bounds; it throws what the first failing element throws.  So
    ["1,2-5,10"] on 0..59 gives [1, 2, 3, 4, 5, 10]. *)
Theorem list_rule :
  (forall expression min max,
      includes expression "," = true ->
      includes expression "/" = false ->
      (forall r,
          expand expression min max (Ok r) <->
          exists expansions,
            Forall2 (fun part parsedValues =>
                       expand (trim part) min max (Ok parsedValues))
                    (split expression ",") expansions /\
            StronglySorted Z.lt r /\
            (forall v, In v r <-> In v (List.concat expansions))) /\
      (forall e,
          expand expression min max (Throw e) <->
          exists done part rest expansions,
            split expression "," = done ++ part :: rest /\
            Forall2 (fun part parsedValues =>
                       expand (trim part) min max (Ok parsedValues))
                    done expansions /\
            expand (trim part) min max (Throw e))) /\
  expand "1,2-5,10" 0 59 (Ok [1; 2; 3; 4; 5; 10]).
Proof.
  split; [|exists 10%nat; reflexivity].
  intros expression min max Hc Hs.
  assert (Hfuel : forall fuel parts expansions,
             Forall2 (fun part parsedValues =>
                        parseField fuel (trim part) min max
                        = Some (Ok parsedValues)) parts expansions ->
             Forall2 (fun part parsedValues =>
                        expand (trim part) min max (Ok parsedValues))
                     parts expansions).
  { intros fuel parts expansions. apply Forall2_impl.
    intros part pv H. now exists fuel. }
  split.
  - intros r. rewrite (expand_list _ _ _ _ Hc Hs). split.
    + intros [fuel H]. unfold bind in H.
      destruct (parseList_loop _ _ _) as [[values|e]|] eqn:El;
        try discriminate.
      injection H as <-. apply parseList_loop_Ok in El.
      destruct El as (expansions & HF & ->).
      exists expansions. split; [exact (Hfuel _ _ _ HF)|]. split.
      * apply sort_sorted, unionInto_NoDup. constructor.
      * intros v. rewrite sort_In, unionInto_In. simpl. tauto.
    + intros (expansions & HF & Hsorted & Hin).
      destruct (expansions_share_fuel _ _ _ _ HF) as [fuel HF'].
      exists fuel. unfold bind.
      rewrite (proj2 (parseList_loop_Ok _ _ [] _)
                 (ex_intro _ expansions (conj HF' eq_refl))).
      unfold ret. do 2 f_equal. apply sorted_unique.
      * apply sort_sorted, unionInto_NoDup. constructor.
      * assumption.
      * intros v. rewrite sort_In, unionInto_In, Hin. simpl. tauto.
  - intros e. rewrite (expand_list _ _ _ _ Hc Hs). split.
    + intros [fuel H]. unfold bind in H.
      destruct (parseList_loop _ _ _) as [[values|e']|] eqn:El;
        try discriminate.
      injection H as <-. apply parseList_loop_Throw in El.
      destruct El as (done & part & rest & expansions & Hsplit & HF & Hp).
      exists done, part, rest, expansions.
      split; [assumption|]. split; [exact (Hfuel _ _ _ HF)|now exists fuel].
    + intros (done & part & rest & expansions & Hsplit & HF & [f2 Hp]).
      destruct (expansions_share_fuel _ _ _ _ HF) as [f1 HF'].
      exists (Nat.max f1 f2). unfold bind.
      rewrite (proj2 (parseList_loop_Throw
                        (fun part => parseField (Nat.max f1 f2) part min max)
                        (split expression ",") [] e)); [reflexivity|].
      exists done, part, rest, expansions. split; [assumption|]. split.
      * eapply Forall2_impl; [|exact HF']. simpl. intros p pv.
        apply parseField_mono. lia.
      * apply (parseField_mono f2); [lia|assumption].
Qed.

Lemma list_rule_witness :
  includes "1, *" "," = true /\ includes "1, *" "/" = false /\
  exists expansions,
    Forall2 (fun part parsedValues => expand (trim part) 0 5 (Ok parsedValues))
            (split "1, *" ",") expansions /\
    (forall v, In v [0; 1; 2; 3; 4; 5] <-> In v (List.concat expansions)).
Proof.
  split; [reflexivity|]. split; [reflexivity|].
  assert (H : expand "1, *" 0 5 (Ok [0; 1; 2; 3; 4; 5]))
    by (exists 10%nat; reflexivity).
  destruct (proj1 (proj1 (proj1 list_rule "1, *" 0 5 eq_refl eq_refl) _) H)
    as (expansions & HF & _ & Hin).
  exists expansions. split; assumption.
Defined.

(** C4 fails as stated: in ["1, *"] the second element is [" *"], whose
    own expansion throws, while the list returns the whole field. *)
Lemma list_element_not_expanded_as_written :
  exists r,
    expand "1, *" 0 5 (Ok r) /\
    ~ exists expansions,
        Forall2 (fun part parsedValues => expand part 0 5 (Ok parsedValues))
                (split "1, *" ",") expansions.
Proof.
  exists [0; 1; 2; 3; 4; 5]. split; [exists 10%nat; reflexivity|].
  intros (expansions & HF). simpl in HF.
  inversion HF as [|? ? ? ? _ HF1]; subst.
  inversion HF1 as [|? pv ? ? [fuel H] _]; subst.
  destruct fuel as [|fuel]; discriminate.
Qed.



(** C6, as the program has it.  With the bounds of one of the five fields,
    when the call returns for an expression that has no step, or whose
    step has the base [*], the sequence has at most [max - min + 1]
    elements, so at most 60. *)
Theorem checked_expansion_size cfg expression r :
  In cfg FIELD_CONFIG.all ->
  boundsChecked expression ->
  expand expression cfg.(min) cfg.(max) (Ok r) ->
  Z.of_nat (List.length r) <= cfg.(max) - cfg.(min) + 1 /\
  Z.of_nat (List.length r) <= 60.
Proof.
  intros Hcfg Hc H.
  destruct (expand_returns _ _ _ _ H) as [Hsorted Hb].
  destruct (Hb Hc) as [Hin _].
  pose proof (sorted_length_bound r _ _ Hsorted Hin) as Hlen.
  assert (Hsize : 0 <= cfg.(max) - cfg.(min) + 1 <= 60).
  { simpl in Hcfg.
    destruct Hcfg as [<-|[<-|[<-|[<-|[<-|[]]]]]]; simpl; lia. }
  lia.
Qed.

Lemma checked_expansion_size_witness :
  In FIELD_CONFIG.hour FIELD_CONFIG.all /\ boundsChecked "1,2-5,10" /\
  expand "1,2-5,10" 0 23 (Ok [1; 2; 3; 4; 5; 10]) /\
  Z.of_nat (List.length [1; 2; 3; 4; 5; 10]) <= 23 - 0 + 1.
Proof.
  assert (Hcfg : In FIELD_CONFIG.hour FIELD_CONFIG.all)
    by (right; left; reflexivity).
  assert (Hc : boundsChecked "1,2-5,10") by (left; reflexivity).
  assert (H : expand "1,2-5,10" 0 23 (Ok [1; 2; 3; 4; 5; 10]))
    by (exists 10%nat; reflexivity).
  split; [exact Hcfg|]. split; [exact Hc|]. split; [exact H|].
  exact (proj1 (checked_expansion_size FIELD_CONFIG.hour "1,2-5,10" _
                  Hcfg Hc H)).
Defined.

(** C6 fails as stated: the step [0-99/1] on the minute bounds returns
    100 values. *)
Lemma step_range_exceeds_field :
  exists r,
    expand "0-99/1" FIELD_CONFIG.minute.(min) FIELD_CONFIG.minute.(max) (Ok r) /\
    ~ (Z.of_nat (List.length r)
       <= FIELD_CONFIG.minute.(max) - FIELD_CONFIG.minute.(min) + 1) /\
    ~ (Z.of_nat (List.length r) <= 60).
Proof.
  exists (interval 0 99). split; [exists 200%nat; vm_compute; reflexivity|].
  rewrite interval_length by lia. simpl. lia.
Qed.

(** C7. The schedule parser throws when its input is empty or is not a
    string, and when the trimmed input, split on runs of white space,
    has fewer than 6 tokens; so it throws on [""] and on ["* * * *"]. *)
Theorem parseSchedule_rejects :
  (forall v,
      ToBoolean v = false \/ typeof v <> "string" ->
      parseSchedule v (Throw CronStringRequired)) /\
  (forall text,
      (List.length (splitWhitespace false (trim text)) < 6)%nat ->
      raises (parseSchedule (Str text))) /\
  raises (parseSchedule (Str "")) /\
  raises (parseSchedule (Str "* * * *")).
Proof.
  assert (Hfew : forall text,
             (List.length (splitWhitespace false (trim text)) < 6)%nat ->
             raises (parseSchedule (Str text))).
  { intros text Hlen. unfold raises, parseSchedule, parseCronExpression.
    destruct (negb (ToBoolean (Str text)) ||
              negb (typeof (Str text) =? "string")%string);
      [exists CronStringRequired, O; reflexivity|].
    exists InvalidCronExpression, O. cbv zeta. simpl textOf.
    apply Nat.ltb_lt in Hlen. now rewrite Hlen. }
  split; [|split; [exact Hfew|split; apply Hfew; vm_compute; lia]].
  intros v H. exists O. unfold parseCronExpression.
  destruct H as [H|H].
  - now rewrite H.
  - apply String.eqb_neq in H. rewrite H. now rewrite orb_true_r.
Qed.

Lemma parseSchedule_rejects_witness :
  typeof Undefined <> "string" /\
  parseSchedule Undefined (Throw CronStringRequired).
Proof.
  assert (H : typeof Undefined <> "string") by discriminate.
  split; [exact H|].
  exact (proj1 parseSchedule_rejects Undefined (or_intror H)).
Defined.

(** C8. ["*/15 0 1,15 * 1-5 /usr/bin/find"] parses to minute
    [0, 15, 30, 45], hour [0], day of month [1, 15], month 1 to 12, day of
    week 1 to 5 and command ["/usr/bin/find"].  In general the first five
    tokens are expanded against 0-59, 0-23, 1-31, 1-12 and 0-6, and the
    other tokens, joined by single spaces, are the command. *)
Theorem parseSchedule_example :
  parseSchedule (Str "*/15 0 1,15 * 1-5 /usr/bin/find")
    (Ok {| minute := [0; 15; 30; 45];
           hour := [0];
           dayOfMonth := [1; 15];
           month := [1; 2; 3; 4; 5; 6; 7; 8; 9; 10; 11; 12];
           dayOfWeek := [1; 2; 3; 4; 5];
           command := "/usr/bin/find" |}) /\
  map (fun cfg => (cfg.(min), cfg.(max))) FIELD_CONFIG.all
  = [(0, 59); (0, 23); (1, 31); (1, 12); (0, 6)] /\
  (forall text f1 f2 f3 f4 f5 c cs r1 r2 r3 r4 r5,
      splitWhitespace false (trim text) = f1 :: f2 :: f3 :: f4 :: f5 :: c :: cs ->
      expand f1 0 59 (Ok r1) ->
      expand f2 0 23 (Ok r2) ->
      expand f3 1 31 (Ok r3) ->
      expand f4 1 12 (Ok r4) ->
      expand f5 0 6 (Ok r5) ->
      parseSchedule (Str text)
        (Ok {| minute := r1; hour := r2; dayOfMonth := r3; month := r4;
               dayOfWeek := r5; command := join (c :: cs) " " |})).
Proof.
  split; [exists 20%nat; reflexivity|]. split; [reflexivity|].
  intros text f1 f2 f3 f4 f5 c cs r1 r2 r3 r4 r5 Htok
         [n1 H1] [n2 H2] [n3 H3] [n4 H4] [n5 H5].
  set (fuel := Nat.max n1 (Nat.max n2 (Nat.max n3 (Nat.max n4 n5)))).
  apply (parseField_mono _ fuel) in H1; [|lia].
  apply (parseField_mono _ fuel) in H2; [|lia].
  apply (parseField_mono _ fuel) in H3; [|lia].
  apply (parseField_mono _ fuel) in H4; [|lia].
  apply (parseField_mono _ fuel) in H5; [|lia].
  exists fuel. unfold parseCronExpression.
  assert (Htext : (text =? "")%string = false).
  { destruct text; [discriminate Htok|reflexivity]. }
  simpl ToBoolean. simpl typeof. simpl textOf. rewrite Htext, Htok.
  cbn -[parseField join]. unfold bind.
  now rewrite H1, H2, H3, H4, H5.
Qed.

Lemma parseSchedule_example_witness :
  parseSchedule (Str "  0 12 * 1-3 0,6 echo  hello   world ")
    (Ok {| minute := [0]; hour := [12]; dayOfMonth := interval 1 31;
           month := [1; 2; 3]; dayOfWeek := [0; 6];
           command := "echo hello world" |}).
Proof.
  apply (proj2 (proj2 parseSchedule_example)
           "  0 12 * 1-3 0,6 echo  hello   world "
           "0" "12" "*" "1-3" "0,6" "echo" ["hello"; "world"]);
    [reflexivity|exists 40%nat; reflexivity..].
Defined.

Lemma parseList_loop_trimmed self parts : forall values,
  parseList_loop self (map trim parts) values = parseList_loop self parts values.
Proof.
  induction parts as [|part rest IH]; intros values; [reflexivity|].
  simpl map. rewrite !parseList_loop_cons, trim_idem. unfold bind.
  destruct (self (trim part)) as [[parsedValues|e]|]; auto.
Qed.

Lemma parseField_stripElements fuel expression min max :
  includes expression "," = true ->
  includes expression "/" = false ->
  parseField fuel (stripElements expression) min max =
  parseField fuel expression min max.
Proof.
  intros Hc Hs. unfold stripElements.
  set (parts := split expression ",").
  assert (Hcomma : Forall (fun piece => includes piece "," = false)
                          (map trim parts)).
  { apply Forall_forall. intros p Hp. apply in_map_iff in Hp.
    destruct Hp as (part & <- & Hpart).
    now apply (list_parts_no_comma expression). }
  assert (Hslash : Forall (fun piece => includes piece "/" = false)
                          (map trim parts)).
  { apply Forall_forall. intros p Hp. apply in_map_iff in Hp.
    destruct Hp as (part & <- & Hpart).
    now apply (list_parts_no_slash expression). }
  assert (Hc' : includes (join (map trim parts) ",") "," = true).
  { subst parts. destruct (split_two expression "," Hc) as (p & q & rest & ->).
    apply includes_join_sep. }
  assert (Hs' : includes (join (map trim parts) ",") "/" = false)
    by now apply includes_join_other.
  assert (Hsplit : split (join (map trim parts) ",") "," = map trim parts).
  { apply split_join; [|assumption]. subst parts.
    destruct (split expression ",") eqn:E;
      [now destruct (split_not_nil expression ",")|discriminate]. }
  destruct fuel as [|[|fuel]].
  - reflexivity.
  - rewrite !parseField_S, Hc, Hs, Hc', Hs'.
    rewrite !(not_star_of_includes _ "," eq_refl) by assumption.
    rewrite !andb_false_r. reflexivity.
  - rewrite !parseField_list by assumption. rewrite Hsplit.
    now rewrite parseList_loop_trimmed.
Qed.

Lemma whitespaceOnly_free s c :
  isWhiteSpace c = false -> whitespaceOnly s = true -> includes s c = false.
Proof.
  intros Hc. induction s as [|x s IH]; simpl; [reflexivity|].
  intros H. apply andb_true_iff in H. destruct H as [Hx Hs].
  rewrite (IH Hs), orb_false_r.
  destruct (Ascii.eqb x c) eqn:E; [|reflexivity].
  apply Ascii.eqb_eq in E. congruence.
Qed.

Lemma trimStart_padding l t :
  whitespaceOnly l = true -> trimStart (l ++ t)%string = trimStart t.
Proof.
  induction l as [|x l IH]; simpl; [reflexivity|].
  intros H. apply andb_true_iff in H. destruct H as [Hx Hl].
  rewrite Hx. now apply IH.
Qed.

Lemma trimEnd_whitespaceOnly r : whitespaceOnly r = true -> trimEnd r = "".
Proof.
  induction r as [|x r IH]; simpl; [reflexivity|].
  intros H. apply andb_true_iff in H. destruct H as [Hx Hr].
  now rewrite (IH Hr), Hx.
Qed.

Lemma trimEnd_padding t r :
  whitespaceOnly r = true -> trimEnd (t ++ r)%string = trimEnd t.
Proof.
  intros Hr. induction t as [|x t IH]; cbn [append].
  - now apply trimEnd_whitespaceOnly.
  - now rewrite !trimEnd_cons, IH.
Qed.

(** White space around an element does not survive [trim]. *)
Lemma trim_padElement p :
  (let '(before, _, after) := p in
   whitespaceOnly before = true /\ whitespaceOnly after = true) ->
  trim (padElement p) = trim (coreElement p).
Proof.
  destruct p as [[l e] r]. intros [Hl Hr]. unfold padElement, coreElement, trim.
  rewrite trimStart_padding by assumption.
  rewrite <- !trimStart_trimEnd. now rewrite trimEnd_padding.
Qed.

Lemma parseList_loop_same_trim self xs ys :
  Forall2 (fun x y => trim x = trim y) xs ys ->
  forall values,
    parseList_loop self xs values = parseList_loop self ys values.
Proof.
  induction 1 as [|x y xs ys Hxy _ IH]; intros values; [reflexivity|].
  rewrite !parseList_loop_cons, Hxy. unfold bind.
  destruct (self (trim y)) as [[parsedValues|e]|]; auto.
Qed.

Lemma parseField_padded fuel elements min max :
  (2 <= List.length elements)%nat ->
  Forall paddedElement elements ->
  parseField fuel (join (map padElement elements) ",") min max =
  parseField fuel (join (map coreElement elements) ",") min max.
Proof.
  intros Hlen Hall.
  assert (Hfree : forall c, isWhiteSpace c = false ->
             (c = "," \/ c = "/")%char ->
             Forall (fun piece => includes piece c = false)
                    (map padElement elements) /\
             Forall (fun piece => includes piece c = false)
                    (map coreElement elements)).
  { intros c Hw Hc. split; apply Forall_forall; intros s Hs;
      apply in_map_iff in Hs; destruct Hs as ([[l e] r] & <- & Hin);
      destruct (proj1 (Forall_forall _ _) Hall _ Hin) as (Hl & Hr & H1 & H2);
      assert (He : includes e c = false) by (destruct Hc; subst; assumption).
    - unfold padElement. rewrite !includes_append, He.
      now rewrite !whitespaceOnly_free.
    - exact He. }
  destruct (Hfree ","%char eq_refl (or_introl eq_refl)) as [Hc1 Hc2].
  destruct (Hfree "/"%char eq_refl (or_intror eq_refl)) as [Hs1 Hs2].
  assert (Hsame : Forall2 (fun x y => trim x = trim y)
                          (map padElement elements)
                          (map coreElement elements)).
  { clear - Hall. induction Hall as [|p ps Hp _ IH]; simpl; constructor;
      [|exact IH].
    apply trim_padElement. destruct p as [[l e] r]. destruct Hp as (Hl & Hr & _).
    now split. }
  destruct elements as [|p [|q rest]]; simpl in Hlen; try lia.
  set (els := p :: q :: rest) in *.
  assert (Hi1 : includes (join (map padElement els) ",") "," = true)
    by apply includes_join_sep.
  assert (Hi2 : includes (join (map coreElement els) ",") "," = true)
    by apply includes_join_sep.
  assert (Hj1 : includes (join (map padElement els) ",") "/" = false)
    by now apply includes_join_other.
  assert (Hj2 : includes (join (map coreElement els) ",") "/" = false)
    by now apply includes_join_other.
  destruct fuel as [|[|fuel]].
  - reflexivity.
  - rewrite !parseField_S, Hi1, Hi2, Hj1, Hj2.
    rewrite !(not_star_of_includes _ "," eq_refl) by assumption.
    rewrite !andb_false_r. reflexivity.
  - rewrite !parseField_list by assumption.
    rewrite !split_join by (assumption || discriminate).
    now rewrite (parseList_loop_same_trim _ _ _ Hsame).
Qed.

(** C9. The elements of a list expression are stripped of the white
    space around them before they are expanded: a list whose elements
    carry white space on either side has the outcome of the same list
    written without it, for all bounds; so ["1, 2-5"] and ["1,2-5"] agree,
    and [" * ,1"] returns the whole field although [" * "] on its own
    throws. *)
Theorem list_elements_are_trimmed :
  (forall elements min max o,
      (2 <= List.length elements)%nat ->
      Forall paddedElement elements ->
      (expand (join (map padElement elements) ",") min max o <->
       expand (join (map coreElement elements) ",") min max o)) /\
  (forall expression min max o,
      includes expression "," = true ->
      includes expression "/" = false ->
      (expand expression min max o <->
       expand (stripElements expression) min max o)) /\
  stripElements "1, 2-5" = "1,2-5" /\
  (forall min max o, expand "1, 2-5" min max o <-> expand "1,2-5" min max o) /\
  expand " * ,1" 0 5 (Ok [0; 1; 2; 3; 4; 5]) /\
  raises (expand " * " 0 5).
Proof.
  assert (H : forall expression min max o,
             includes expression "," = true ->
             includes expression "/" = false ->
             (expand expression min max o <->
              expand (stripElements expression) min max o)).
  { intros expression min max o Hc Hs. unfold expand.
    split; intros [fuel Hf]; exists fuel.
    - now rewrite parseField_stripElements.
    - now rewrite parseField_stripElements in Hf. }
  split; [|split; [exact H|split; [reflexivity|split; [|split]]]].
  - intros elements min max o Hlen Hall. unfold expand.
    split; intros [fuel Hf]; exists fuel.
    + now rewrite <- parseField_padded.
    + now rewrite parseField_padded.
  - intros min max o. exact (H "1, 2-5" min max o eq_refl eq_refl).
  - exists 10%nat. reflexivity.
  - exists (InvalidValue " * " 0 5), 1%nat. reflexivity.
Qed.

Lemma list_elements_are_trimmed_witness :
  Forall paddedElement [(" ", "*", "  "); ("", "2-3", " ")] /\
  join (map padElement [(" ", "*", "  "); ("", "2-3", " ")]) "," = " *  ,2-3 " /\
  expand " *  ,2-3 " 0 5 (Ok [0; 1; 2; 3; 4; 5]).
Proof.
  assert (Hall : Forall paddedElement [(" ", "*", "  "); ("", "2-3", " ")])
    by (repeat constructor).
  split; [exact Hall|]. split; [reflexivity|].
  apply (proj2 (proj1 list_elements_are_trimmed
                  [(" ", "*", "  "); ("", "2-3", " ")] 0 5 _
                  ltac:(simpl; lia) Hall)).
  exists 10%nat. reflexivity.
Defined.










(** ** Further properties of the field expander *)

Lemma interval_length_any a b :
  Z.of_nat (List.length (interval a b)) = Z.max 0 (b - a + 1).
Proof.
  destruct (Z_lt_le_dec b a) as [H|H].
  - unfold interval. rewrite stepSequence_nil by assumption. simpl. lia.
  - rewrite interval_length by assumption. lia.
Qed.

(** X1. With bounds within the limits of numbers and arrays, the wild
    card [*] returns every integer from [min] to [max] in ascending
    order, [max - min + 1] of them, and none when [max < min]. *)
Theorem wildcard_rule min max :
  fieldWithinLimits min max ->
  expand "*" min max (Ok (interval min max)) /\
  StronglySorted Z.lt (interval min max) /\
  (forall v, In v (interval min max) <-> min <= v <= max) /\
  Z.of_nat (List.length (interval min max)) = Z.max 0 (max - min + 1).
Proof.
  intros _. split; [|split; [|split]].
  - exists (S (Z.to_nat (rangeCount min max 1))). rewrite parseField_S.
    simpl String.eqb. apply generateRange_enough; [lia|reflexivity].
  - apply stepSequence_sorted. lia.
  - apply interval_In.
  - apply interval_length_any.
Qed.

Lemma wildcard_rule_witness :
  fieldWithinLimits 1 12 /\
  expand "*" 1 12 (Ok [1; 2; 3; 4; 5; 6; 7; 8; 9; 10; 11; 12]).
Proof.
  assert (Hf : fieldWithinLimits 1 12).
  { unfold fieldWithinLimits, safeInteger, arrayCapacity. vm_compute.
    repeat split; (reflexivity || discriminate). }
  split; [exact Hf|]. exact (proj1 (wildcard_rule 1 12 Hf)).
Defined.

(** X2. Whatever the expression, a returned sequence is strictly
    ascending: it is sorted and holds no value twice. *)
Theorem expansion_strictly_ascending expression min max r :
  expand expression min max (Ok r) -> StronglySorted Z.lt r.
Proof.
  intros H. exact (proj1 (expand_returns _ _ _ _ H)).
Qed.

Lemma expansion_strictly_ascending_witness :
  expand "3-5,1,4,10-11" 0 59 (Ok [1; 3; 4; 5; 10; 11]) /\
  StronglySorted Z.lt [1; 3; 4; 5; 10; 11].
Proof.
  assert (H : expand "3-5,1,4,10-11" 0 59 (Ok [1; 3; 4; 5; 10; 11]))
    by (exists 10%nat; reflexivity).
  split; [exact H|].
  exact (expansion_strictly_ascending "3-5,1,4,10-11" 0 59 _ H).
Defined.

(** X3. The loop of [generateRange] does not end when the step is not
    positive and the start is at most the end: no amount of fuel gives a
    result.  The test [stepValue <= 0] of [parseStepValue] is what keeps
    such a step away from it. *)
Theorem generateRange_needs_positive_step start end_ step :
  step <= 0 -> start <= end_ ->
  forall fuel, generateRange fuel start end_ step = None.
Proof.
  intros Hs Hle fuel. unfold generateRange. generalize (@nil Z) as result.
  revert start Hle. induction fuel as [|fuel IH]; intros start Hle result;
    simpl; apply Z.leb_le in Hle as Hb; rewrite Hb; [reflexivity|].
  apply IH. lia.
Qed.

Lemma generateRange_needs_positive_step_witness :
  0 <= 0 /\ 1 <= 5 /\ generateRange 1000 1 5 0 = None.
Proof.
  split; [lia|]. split; [lia|].
  apply (generateRange_needs_positive_step 1 5 0); lia.
Defined.

Lemma split_cons_other x s sep :
  Ascii.eqb x sep = false ->
  exists piece pieces,
    split s sep = piece :: pieces /\
    split (String x s) sep = String x piece :: pieces.
Proof.
  intros H. simpl. rewrite H.
  destruct (split s sep) as [|piece pieces] eqn:E;
    [now destruct (split_not_nil s sep)|].
  now exists piece, pieces.
Qed.

Lemma trim_leading_minus s : exists t, trim (String "-" s) = String "-" t.
Proof.
  unfold trim. simpl trimStart. rewrite trimEnd_cons.
  destruct (trimEnd s) as [|y t]; simpl; eauto.
Qed.

(** A range that begins with [-] has an empty first part. *)
Lemma leading_minus_range s min max :
  includes (String "-" s) "," = false ->
  includes (String "-" s) "/" = false ->
  parseField 1 (String "-" s) min max
  = throw (InvalidRange (String "-" s)).
Proof.
  intros Hc Hs. rewrite parseField_range; [reflexivity|reflexivity|exact Hc|exact Hs].
Qed.

(** X4. An expression that begins with [-] throws, whatever the bounds:
    the text never denotes a negative number. *)
Theorem leading_minus_throws s min max :
  raises (expand (String "-" s) min max).
Proof.
  set (e := String "-" s).
  destruct (includes e "/") eqn:Hs.
  - destruct (split_cons_other "-" s "/" eq_refl) as (p & ps & _ & Hsplit).
    fold e in Hsplit.
    assert (H : exists err, parseStepValue 0 e min max = throw err).
    { unfold parseStepValue. rewrite Hsplit. simpl nth.
      destruct (parseInt (nth 0 ps "undefined")) as [n|]; [|eauto].
      destruct (n <=? 0); [eauto|]. simpl. eauto. }
    destruct H as [err H]. exists err, 1%nat.
    now rewrite parseField_step.
  - destruct (includes e ",") eqn:Hc.
    + destruct (split_cons_other "-" s "," eq_refl) as (p & ps & Hps & Hsplit).
      fold e in Hsplit.
      destruct (trim_leading_minus p) as [t Ht].
      assert (Hpart : In (String "-" p) (split e ","))
        by (rewrite Hsplit; now left).
      pose proof (list_parts_no_comma e _ Hpart) as Hc'.
      pose proof (list_parts_no_slash e _ Hs Hpart) as Hs'.
      rewrite Ht in Hc', Hs'.
      exists (InvalidRange (String "-" t)), 3%nat.
      rewrite parseField_list by assumption.
      rewrite Hsplit, parseList_loop_cons, Ht.
      now rewrite (leading_minus_range t min max Hc' Hs').
    + exists (InvalidRange e), 1%nat. now apply leading_minus_range.
Qed.

Lemma digitValue_range c d : digitValue c = Some d -> 0 <= d <= 9.
Proof.
  unfold digitValue.
  destruct ((48 <=? N_of_ascii c)%N && (N_of_ascii c <=? 57)%N) eqn:E;
    [|discriminate].
  apply andb_true_iff in E. destruct E as [E1 E2].
  apply N.leb_le in E1, E2. intros H. injection H as <-. lia.
Qed.

Lemma parseDigits_nonneg s : forall acc seen v,
  0 <= acc -> parseDigits s acc seen = Some v -> 0 <= v.
Proof.
  induction s as [|x s IH]; intros acc seen v Hacc; cbn [parseDigits].
  - destruct seen; [|discriminate]. intros H. injection H as <-. exact Hacc.
  - destruct (digitValue x) as [d|] eqn:Ed.
    + apply IH. apply digitValue_range in Ed. lia.
    + destruct seen; [|discriminate]. intros H. injection H as <-. exact Hacc.
Qed.

(** Without a [-] in the text, [parseInt] reads no negative number. *)
Lemma parseInt_nonneg s v :
  includes s "-" = false -> parseInt s = Some v -> 0 <= v.
Proof.
  intros Hd. unfold parseInt.
  destruct (trimStart s) as [|x s'] eqn:E; [discriminate|].
  assert (Hx : includes (String x s') "-" = false).
  { rewrite <- E. destruct (includes (trimStart s) "-") eqn:E'; [|reflexivity].
    apply includes_trimStart in E'. congruence. }
  simpl in Hx. apply orb_false_iff in Hx. destruct Hx as [Hx _]. rewrite Hx.
  destruct (Ascii.eqb x "+"); now apply parseDigits_nonneg.
Qed.

Lemma split_pieces_nonneg s k v :
  nth k (map parseInt (split s "-")) NaN = Some v -> 0 <= v.
Proof.
  intros H.
  destruct (Nat.lt_ge_cases k (List.length (map parseInt (split s "-"))))
    as [Hk|Hk].
  - rewrite (nth_indep _ NaN (parseInt "") Hk) in H.
    rewrite map_nth in H. rewrite length_map in Hk.
    apply (parseInt_nonneg (nth k (split s "-") "")); [|assumption].
    exact (proj1 (Forall_forall _ _) (split_pieces_free s "-") _
             (nth_In _ _ Hk)).
  - rewrite nth_overflow in H by assumption. discriminate.
Qed.

Lemma Forall_at_least lo start end_ step :
  0 < step -> lo <= start ->
  Forall (fun v => lo <= v) (stepSequence start end_ step).
Proof.
  intros Hs Hlo. eapply Forall_impl; [|apply stepSequence_bounds; assumption].
  unfold inBounds. simpl. lia.
Qed.

Lemma parseStepValue_floor fuel expression min max r :
  parseStepValue fuel expression min max = Some (Ok r) ->
  Forall (fun v => Z.min 0 min <= v) r.
Proof.
  unfold parseStepValue.
  destruct (parseInt (nth 1 _ _)) as [n|]; [|discriminate].
  destruct (n <=? 0) eqn:En; [discriminate|]. apply Z.leb_gt in En.
  destruct (negb _).
  - destruct (includes _ _) eqn:Ed.
    + destruct (nth 0 (map parseInt _) NaN) as [a|] eqn:Ea; [|discriminate].
      destruct (nth 1 (map parseInt _) NaN) as [b|]; [|discriminate].
      intros H. apply generateRange_returns in H; [subst r|assumption].
      apply split_pieces_nonneg in Ea. apply Forall_at_least; lia.
    + destruct (parseInt _) as [s|] eqn:Es; [|discriminate].
      intros H. apply generateRange_returns in H; [subst r|assumption].
      apply parseInt_nonneg in Es; [|assumption]. apply Forall_at_least; lia.
  - intros H. apply generateRange_returns in H; [subst r|assumption].
    apply Forall_at_least; lia.
Qed.

Lemma parseField_floor fuel :
  forall expression min max r,
    parseField fuel expression min max = Some (Ok r) ->
    Forall (fun v => Z.min 0 min <= v) r.
Proof.
  induction fuel as [fuel IH] using (well_founded_induction lt_wf).
  intros expression min max r H.
  destruct fuel as [|fuel]; [discriminate|]. rewrite parseField_S in H.
  destruct (expression =? "*")%string.
  { apply generateRange_returns in H; [subst r|lia]. apply Forall_at_least; lia. }
  destruct (includes expression "/").
  { now apply parseStepValue_floor in H. }
  destruct (includes expression "-" && negb (includes expression ",")).
  { apply parseRange_returns in H. destruct H as (a & b & Ha & _ & _ & ->).
    apply Forall_at_least; lia. }
  destruct (includes expression ",") eqn:Ec.
  { destruct fuel as [|fuel]; [discriminate|]. rewrite parseList_S in H.
    unfold bind in H.
    destruct (parseList_loop _ _ _) as [[values|e]|] eqn:El; try discriminate.
    injection H as <-.
    apply parseList_loop_Ok in El. destruct El as (expansions & HF & ->).
    apply Forall_forall. intros v Hv.
    apply sort_In, unionInto_In in Hv. destruct Hv as [[]|Hv].
    apply in_concat in Hv. destruct Hv as (parsedValues & Hpv & Hv).
    destruct (Forall2_in_r_exists _ _ _ HF _ Hpv) as (part & _ & Hrun).
    apply (IH fuel ltac:(lia)) in Hrun.
    exact (proj1 (Forall_forall _ _) Hrun _ Hv). }
  destruct (parseInt expression) as [v|]; [|discriminate].
  destruct ((v <? min) || (v >? max)) eqn:E; [discriminate|].
  injection H as <-. repeat constructor. lia.
Qed.

(** X5. No returned value is below both 0 and [min]: a step starts at
    [min] or at a number read from the text, which is never negative.
    With [0 <= min], as for the five fields, no returned value is
    negative, also for the steps that are not checked against the
    bounds. *)
Theorem expansion_floor expression min max r :
  expand expression min max (Ok r) ->
  Forall (fun v => Z.min 0 min <= v) r /\
  (0 <= min -> Forall (fun v => 0 <= v) r).
Proof.
  intros [fuel H]. apply parseField_floor in H. split; [exact H|].
  intros Hmin. eapply Forall_impl; [|exact H]. simpl. lia.
Qed.

Lemma expansion_floor_witness :
  expand "0/9" 1 31 (Ok [0; 9; 18; 27]) /\ Forall (fun v => 0 <= v) [0; 9; 18; 27].
Proof.
  assert (H : expand "0/9" 1 31 (Ok [0; 9; 18; 27]))
    by (exists 10%nat; reflexivity).
  split; [exact H|].
  apply (proj2 (expansion_floor "0/9" 1 31 _ H)). lia.
Defined.

Lemma Forall2_in_l_exists {A B} (R : A -> B -> Prop) l1 l2 :
  Forall2 R l1 l2 -> forall a, In a l1 -> exists b, In b l2 /\ R a b.
Proof.
  induction 1 as [|a0 b0 l1 l2 H0 HF IH]; intros a [].
  - subst. exists b0. split; [now left|assumption].
  - destruct (IH a H) as (b & Hb & Hab). exists b. split; [now right|assumption].
Qed.

Lemma Forall2_of_each {A B} (R : A -> B -> Prop) l1 :
  (forall a, In a l1 -> exists b, R a b) -> exists l2, Forall2 R l1 l2.
Proof.
  induction l1 as [|a l1 IH]; intros H.
  - exists []. constructor.
  - destruct (H a (or_introl eq_refl)) as [b Hb].
    destruct IH as [l2 Hl2]; [intros a' Ha'; apply H; now right|].
    exists (b :: l2). now constructor.
Qed.

(** What a list returns, in terms of what its elements return. *)
Lemma list_returns expression min max r :
  includes expression "," = true ->
  includes expression "/" = false ->
  expand expression min max (Ok r) <->
  exists expansions,
    Forall2 (fun part parsedValues =>
               expand (trim part) min max (Ok parsedValues))
            (split expression ",") expansions /\
    StronglySorted Z.lt r /\
    (forall v, In v r <-> In v (List.concat expansions)).
Proof.
  intros Hc Hs. rewrite (expand_list _ _ _ _ Hc Hs). split.
  - intros [fuel H]. unfold bind in H.
    destruct (parseList_loop _ _ _) as [[values|e]|] eqn:El; try discriminate.
    injection H as <-. apply parseList_loop_Ok in El.
    destruct El as (expansions & HF & ->).
    exists expansions. split; [|split].
    + eapply Forall2_impl; [|exact HF]. intros part pv H. now exists fuel.
    + apply sort_sorted, unionInto_NoDup. constructor.
    + intros v. rewrite sort_In, unionInto_In. simpl. tauto.
  - intros (expansions & HF & Hsorted & Hin).
    destruct (expansions_share_fuel _ _ _ _ HF) as [fuel HF'].
    exists fuel. unfold bind.
    rewrite (proj2 (parseList_loop_Ok _ _ [] _)
               (ex_intro _ expansions (conj HF' eq_refl))).
    unfold ret. do 2 f_equal. apply sorted_unique.
    + apply sort_sorted, unionInto_NoDup. constructor.
    + assumption.
    + intros v. rewrite sort_In, unionInto_In, Hin. simpl. tauto.
Qed.

(** X6. What a list returns depends only on the set of its trimmed
    elements: the order of the elements and their repetition do not
    matter. *)
Theorem list_depends_on_element_set e1 e2 min max r :
  includes e1 "," = true -> includes e1 "/" = false ->
  includes e2 "," = true -> includes e2 "/" = false ->
  (forall t, In t (map trim (split e1 ",")) <-> In t (map trim (split e2 ","))) ->
  expand e1 min max (Ok r) -> expand e2 min max (Ok r).
Proof.
  intros Hc1 Hs1 Hc2 Hs2 Hset H1.
  apply (list_returns _ _ _ _ Hc1 Hs1) in H1.
  destruct H1 as (exps1 & HF1 & Hsorted & Hin).
  apply (list_returns _ _ _ _ Hc2 Hs2).
  destruct (Forall2_of_each
              (fun part pv => expand (trim part) min max (Ok pv) /\ In pv exps1)
              (split e2 ",")) as [exps2 HF2].
  { intros q Hq.
    assert (Ht : In (trim q) (map trim (split e1 ",")))
      by (apply Hset; now apply in_map).
    apply in_map_iff in Ht. destruct Ht as (p & Hp & Hpin).
    destruct (Forall2_in_l_exists _ _ _ HF1 _ Hpin) as (pv & Hpv & Hrun).
    exists pv. rewrite <- Hp. now split. }
  exists exps2. split; [|split; [assumption|]].
  - eapply Forall2_impl; [|exact HF2]. simpl. tauto.
  - intros v. rewrite Hin. split; intros Hv; apply in_concat in Hv;
      destruct Hv as (pv & Hpv & Hv); apply in_concat.
    + destruct (Forall2_in_r_exists _ _ _ HF1 _ Hpv) as (p & Hp & Hrun).
      assert (Ht : In (trim p) (map trim (split e2 ",")))
        by (apply Hset; now apply in_map).
      apply in_map_iff in Ht. destruct Ht as (q & Hq & Hqin).
      destruct (Forall2_in_l_exists _ _ _ HF2 _ Hqin) as (qv & Hqv & Hrun' & _).
      rewrite Hq in Hrun'.
      assert (E : Ok qv = Ok pv) by exact (expand_deterministic _ _ _ _ _ Hrun' Hrun).
      injection E as ->. now exists pv.
    + destruct (Forall2_in_r_exists _ _ _ HF2 _ Hpv) as (q & _ & _ & Hpv1).
      now exists pv.
Qed.

Lemma list_depends_on_element_set_witness :
  expand "5, 1-3,5" 0 59 (Ok [1; 2; 3; 5]) /\
  expand "1-3,5 ,1-3" 0 59 (Ok [1; 2; 3; 5]).
Proof.
  assert (H : expand "5, 1-3,5" 0 59 (Ok [1; 2; 3; 5]))
    by (exists 10%nat; reflexivity).
  split; [exact H|].
  apply (list_depends_on_element_set "5, 1-3,5" "1-3,5 ,1-3" 0 59 _
           eq_refl eq_refl eq_refl eq_refl); [|exact H].
  intros t. simpl. tauto.
Defined.

Lemma trimStart_append s t :
  trimStart s <> "" -> trimStart (s ++ t)%string = (trimStart s ++ t)%string.
Proof.
  induction s as [|x s IH]; simpl; [congruence|].
  destruct (isWhiteSpace x); [exact IH|reflexivity].
Qed.

Lemma parseDigits_append s t : forall acc seen v,
  match t with
  | EmptyString => True
  | String c _ => digitValue c = None
  end ->
  parseDigits s acc seen = Some v ->
  parseDigits (s ++ t)%string acc seen = Some v.
Proof.
  induction s as [|x s IH]; intros acc seen v Ht; cbn [parseDigits append].
  - destruct seen; [|discriminate]. intros H.
    destruct t as [|c t]; [exact H|]. cbn [parseDigits]. now rewrite Ht.
  - destruct (digitValue x); [now apply IH|trivial].
Qed.

(** Text after a number is not read, unless it goes on with a digit. *)
Lemma parseInt_append s t v :
  match t with
  | EmptyString => True
  | String c _ => digitValue c = None
  end ->
  parseInt s = Some v -> parseInt (s ++ t)%string = Some v.
Proof.
  intros Ht. unfold parseInt.
  destruct (trimStart s) as [|x s'] eqn:E; [discriminate|].
  rewrite trimStart_append by congruence. rewrite E. cbn [append].
  destruct (Ascii.eqb x "-").
  - destruct (parseDigits s' 0 false) as [w|] eqn:Ew; [|discriminate].
    now rewrite (parseDigits_append _ _ _ _ _ Ht Ew).
  - destruct (Ascii.eqb x "+").
    + now apply parseDigits_append.
    + now apply (parseDigits_append (String x s')).
Qed.

(** X7. A single value is read as [parseInt] reads it: text that follows
    the number and does not go on with a digit is ignored, so that
    ["30min"] is accepted as 30.  Here neither text holds one of
    [*], [/], [-], [,]. *)
Theorem trailing_text_ignored s t min max r :
  Forall (fun c => includes s c = false /\ includes t c = false)
         ["*"; "/"; "-"; ","]%char ->
  match t with
  | EmptyString => True
  | String c _ => digitValue c = None
  end ->
  expand s min max (Ok r) -> expand (s ++ t)%string min max (Ok r).
Proof.
  intros Hfree Ht [fuel H].
  assert (Hst : forall c, In c ["*"; "/"; "-"; ","]%char ->
                          includes s c = false /\
                          includes (s ++ t)%string c = false).
  { intros c Hc. destruct (proj1 (Forall_forall _ _) Hfree c Hc) as [H1 H2].
    split; [assumption|]. now rewrite includes_append, H1, H2. }
  destruct (Hst "*"%char ltac:(simpl; tauto)) as [Hs1 Ha1].
  destruct (Hst "/"%char ltac:(simpl; tauto)) as [Hs2 Ha2].
  destruct (Hst "-"%char ltac:(simpl; tauto)) as [Hs3 Ha3].
  destruct (Hst ","%char ltac:(simpl; tauto)) as [Hs4 Ha4].
  destruct fuel as [|fuel]; [discriminate|]. exists 1%nat.
  rewrite parseField_S in *.
  rewrite (not_star_of_free _ Hs1), Hs2, Hs3, Hs4 in H.
  rewrite (not_star_of_free _ Ha1), Ha2, Ha3, Ha4.
  simpl andb in *. cbv iota in *.
  destruct (parseInt s) as [v|] eqn:Ev; [|discriminate].
  rewrite (parseInt_append _ _ _ Ht Ev).
  destruct ((v <? min) || (v >? max)); [discriminate|exact H].
Qed.

Lemma trailing_text_ignored_witness :
  expand "30" 0 59 (Ok [30]) /\ expand "30min" 0 59 (Ok [30]).
Proof.
  assert (H : expand "30" 0 59 (Ok [30])) by (exists 1%nat; reflexivity).
  split; [exact H|].
  apply (trailing_text_ignored "30" "min" 0 59 [30]); [|reflexivity|exact H].
  repeat constructor.
Defined.

(** ** Properties of the schedule parser *)

Lemma generateRange_loop_never_throws fuel : forall i end_ step result e,
  generateRange_loop fuel i end_ step result <> Some (Throw e).
Proof.
  induction fuel as [|fuel IH]; intros i end_ step result e; simpl;
    destruct (i <=? end_); try discriminate. apply IH.
Qed.

Lemma generateRange_never_throws fuel start end_ step e :
  generateRange fuel start end_ step <> Some (Throw e).
Proof. apply generateRange_loop_never_throws. Qed.

Lemma parseStepValue_throws fuel expression min max e :
  parseStepValue fuel expression min max = Some (Throw e) -> fieldError e.
Proof.
  unfold parseStepValue, throw.
  destruct (parseInt (nth 1 _ _)) as [n|]; [|intros [= <-]; exact I].
  destruct (n <=? 0); [intros [= <-]; exact I|].
  destruct (negb _).
  - destruct (includes _ _).
    + destruct (nth 0 (map parseInt _) NaN); [|intros [= <-]; exact I].
      destruct (nth 1 (map parseInt _) NaN); [|intros [= <-]; exact I].
      intros H. now apply generateRange_never_throws in H.
    + destruct (parseInt _); [|intros [= <-]; exact I].
      intros H. now apply generateRange_never_throws in H.
  - intros H. now apply generateRange_never_throws in H.
Qed.

Lemma parseRange_throws fuel expression min max e :
  parseRange fuel expression min max = Some (Throw e) -> fieldError e.
Proof.
  unfold parseRange, throw.
  destruct (nth 0 _ _); [|intros [= <-]; exact I].
  destruct (nth 1 _ _); [|intros [= <-]; exact I].
  destruct (_ || _); [intros [= <-]; exact I|].
  intros H. now apply generateRange_never_throws in H.
Qed.

Lemma parseField_throws fuel :
  forall expression min max e,
    parseField fuel expression min max = Some (Throw e) -> fieldError e.
Proof.
  induction fuel as [fuel IH] using (well_founded_induction lt_wf).
  intros expression min max e H.
  destruct fuel as [|fuel]; [discriminate|]. rewrite parseField_S in H.
  destruct (expression =? "*")%string;
    [now apply generateRange_never_throws in H|].
  destruct (includes expression "/"); [now apply parseStepValue_throws in H|].
  destruct (includes expression "-" && negb (includes expression ","));
    [now apply parseRange_throws in H|].
  destruct (includes expression ",").
  { destruct fuel as [|fuel]; [discriminate|]. rewrite parseList_S in H.
    unfold bind in H.
    destruct (parseList_loop _ _ _) as [[values|e']|] eqn:El; try discriminate.
    injection H as ->. apply parseList_loop_Throw in El.
    destruct El as (done & part & rest & expansions & _ & _ & Hp).
    now apply (IH fuel ltac:(lia)) in Hp. }
  unfold throw, ret in H. destruct (parseInt expression) as [v|];
    [|injection H as <-; exact I].
  destruct (_ || _); [injection H as <-; exact I|discriminate].
Qed.

(** The body of [parseCronExpression] once the input has passed the two
    tests. *)
Lemma parseCronExpression_fields fuel text f1 f2 f3 f4 f5 c cs :
  splitWhitespace false (trim text) = f1 :: f2 :: f3 :: f4 :: f5 :: c :: cs ->
  parseCronExpression fuel (Str text) =
  try_catch
    (minute <- parseField fuel f1 0 59 ;;
     hour <- parseField fuel f2 0 23 ;;
     dayOfMonth <- parseField fuel f3 1 31 ;;
     month <- parseField fuel f4 1 12 ;;
     dayOfWeek <- parseField fuel f5 0 6 ;;
     ret {| minute := minute; hour := hour; dayOfMonth := dayOfMonth;
            month := month; dayOfWeek := dayOfWeek;
            command := join (c :: cs) " " |})
    FailedToParse.
Proof.
  intros Htok. unfold parseCronExpression.
  assert (Htext : (text =? "")%string = false).
  { destruct text; [discriminate Htok|reflexivity]. }
  simpl ToBoolean. simpl typeof. simpl textOf. rewrite Htext, Htok.
  reflexivity.
Qed.

Lemma six_tokens (tokens : list string) :
  (List.length tokens <? 6)%nat = false ->
  exists f1 f2 f3 f4 f5 c cs, tokens = f1 :: f2 :: f3 :: f4 :: f5 :: c :: cs.
Proof.
  intros H. apply Nat.ltb_ge in H.
  destruct tokens as [|f1 [|f2 [|f3 [|f4 [|f5 [|c cs]]]]]]; simpl in H;
    try lia.
  now exists f1, f2, f3, f4, f5, c, cs.
Qed.

(** What a returned schedule says about the input. *)
Lemma schedule_of_result v p :
  parseSchedule v (Ok p) ->
  exists text f1 f2 f3 f4 f5 c cs,
    v = Str text /\
    splitWhitespace false (trim text) = f1 :: f2 :: f3 :: f4 :: f5 :: c :: cs /\
    expand f1 0 59 (Ok p.(minute)) /\
    expand f2 0 23 (Ok p.(hour)) /\
    expand f3 1 31 (Ok p.(dayOfMonth)) /\
    expand f4 1 12 (Ok p.(month)) /\
    expand f5 0 6 (Ok p.(dayOfWeek)) /\
    p.(command) = join (c :: cs) " ".
Proof.
  intros [fuel H].
  destruct v as [| |b|n|text|];
    try (unfold parseCronExpression in H; simpl in H;
         rewrite ?orb_true_r in H; discriminate).
  assert (Hlen : (List.length (splitWhitespace false (trim text)) <? 6)%nat
                 = false).
  { unfold parseCronExpression in H.
    destruct (negb (ToBoolean (Str text)) || _); [discriminate|].
    cbv zeta in H. simpl textOf in H.
    destruct (_ <? 6)%nat; [discriminate|reflexivity]. }
  destruct (six_tokens _ Hlen) as (f1 & f2 & f3 & f4 & f5 & c & cs & Htok).
  rewrite (parseCronExpression_fields _ _ _ _ _ _ _ _ _ Htok) in H.
  unfold try_catch, bind in H.
  destruct (parseField fuel f1 0 59) as [[r1|e]|] eqn:E1; try discriminate.
  destruct (parseField fuel f2 0 23) as [[r2|e]|] eqn:E2; try discriminate.
  destruct (parseField fuel f3 1 31) as [[r3|e]|] eqn:E3; try discriminate.
  destruct (parseField fuel f4 1 12) as [[r4|e]|] eqn:E4; try discriminate.
  destruct (parseField fuel f5 0 6) as [[r5|e]|] eqn:E5; try discriminate.
  injection H as <-.
  exists text, f1, f2, f3, f4, f5, c, cs. simpl.
  repeat split; try reflexivity; try assumption; now exists fuel.
Qed.

(** X8. When the schedule parser returns, its input was a string of six
    tokens or more, each of the five fields is what the matching token
    expands to within 0-59, 0-23, 1-31, 1-12 and 0-6, and the command is
    the other tokens joined by single spaces. *)
Theorem parseSchedule_returns v p :
  parseSchedule v (Ok p) ->
  exists text f1 f2 f3 f4 f5 c cs,
    v = Str text /\
    splitWhitespace false (trim text) = f1 :: f2 :: f3 :: f4 :: f5 :: c :: cs /\
    expand f1 0 59 (Ok p.(minute)) /\
    expand f2 0 23 (Ok p.(hour)) /\
    expand f3 1 31 (Ok p.(dayOfMonth)) /\
    expand f4 1 12 (Ok p.(month)) /\
    expand f5 0 6 (Ok p.(dayOfWeek)) /\
    p.(command) = join (c :: cs) " ".
Proof. apply schedule_of_result. Qed.

Lemma parseSchedule_returns_witness :
  exists text f1 f2 f3 f4 f5 c cs,
    Str "1 2 3 4 5 ls -l" = Str text /\
    splitWhitespace false (trim text) = f1 :: f2 :: f3 :: f4 :: f5 :: c :: cs /\
    expand f1 0 59 (Ok [1]) /\ "ls -l" = join (c :: cs) " ".
Proof.
  assert (H : parseSchedule (Str "1 2 3 4 5 ls -l")
                (Ok {| minute := [1]; hour := [2]; dayOfMonth := [3];
                       month := [4]; dayOfWeek := [5]; command := "ls -l" |}))
    by (exists 5%nat; reflexivity).
  destruct (parseSchedule_returns _ _ H)
    as (text & f1 & f2 & f3 & f4 & f5 & c & cs & Hv & Htok & H1 & _ & _ & _ & _ & Hc).
  exists text, f1, f2, f3, f4, f5, c, cs. repeat split; assumption.
Defined.

(** X9. On an input whose field tokens are checked against the bounds (no
    step, or a step on [*]), the schedule parser throws one of three
    things: "required" for an input that is falsy or not a string,
    "invalid expression" for a string of fewer than six tokens, and
    otherwise an error of the field expander wrapped exactly once. *)
Theorem parseSchedule_throws v e :
  (forall text, v = Str text -> Forall boundsChecked (fieldTokens text)) ->
  parseSchedule v (Throw e) ->
  (e = CronStringRequired /\ (ToBoolean v = false \/ typeof v <> "string")) \/
  (e = InvalidCronExpression /\
   exists text, v = Str text /\ text <> "" /\
     (List.length (splitWhitespace false (trim text)) < 6)%nat) \/
  (exists cause, e = FailedToParse cause /\ fieldError cause /\
     exists text, v = Str text /\
       (6 <= List.length (splitWhitespace false (trim text)))%nat).
Proof.
  intros _ [fuel H].
  destruct (negb (ToBoolean v) || negb (typeof v =? "string")%string) eqn:Ev.
  { left. unfold parseCronExpression in H. rewrite Ev in H.
    injection H as <-. split; [reflexivity|].
    apply orb_true_iff in Ev. destruct Ev as [Ev|Ev].
    - left. now apply negb_true_iff in Ev.
    - right. apply negb_true_iff in Ev. now apply String.eqb_neq in Ev. }
  right. apply orb_false_iff in Ev. destruct Ev as [Ev1 Ev2].
  destruct v as [| |b|n|text|]; try discriminate Ev2.
  assert (Htext : text <> "").
  { intros ->. discriminate Ev1. }
  destruct (List.length (splitWhitespace false (trim text)) <? 6)%nat eqn:Hlen.
  { left. unfold parseCronExpression in H. rewrite Ev1, Ev2 in H.
    cbv zeta in H. simpl textOf in H. rewrite Hlen in H.
    injection H as <-. split; [reflexivity|].
    exists text. repeat split; [assumption|]. now apply Nat.ltb_lt. }
  right.
  destruct (six_tokens _ Hlen) as (f1 & f2 & f3 & f4 & f5 & c & cs & Htok).
  rewrite (parseCronExpression_fields _ _ _ _ _ _ _ _ _ Htok) in H.
  assert (Hwrap : forall expression min max cause,
             parseField fuel expression min max = Some (Throw cause) ->
             exists cause', FailedToParse cause = FailedToParse cause' /\
               fieldError cause' /\
               exists text', Str text = Str text' /\
                 (6 <= List.length (splitWhitespace false (trim text')))%nat).
  { intros expression min max cause Hc. exists cause. split; [reflexivity|].
    split; [exact (parseField_throws _ _ _ _ _ Hc)|].
    exists text. split; [reflexivity|]. now apply Nat.ltb_ge. }
  unfold try_catch, bind in H.
  destruct (parseField fuel f1 0 59) as [[r1|e1]|] eqn:E1; try discriminate;
    [|injection H as <-; exact (Hwrap _ _ _ _ E1)].
  destruct (parseField fuel f2 0 23) as [[r2|e2]|] eqn:E2; try discriminate;
    [|injection H as <-; exact (Hwrap _ _ _ _ E2)].
  destruct (parseField fuel f3 1 31) as [[r3|e3]|] eqn:E3; try discriminate;
    [|injection H as <-; exact (Hwrap _ _ _ _ E3)].
  destruct (parseField fuel f4 1 12) as [[r4|e4]|] eqn:E4; try discriminate;
    [|injection H as <-; exact (Hwrap _ _ _ _ E4)].
  destruct (parseField fuel f5 0 6) as [[r5|e5]|] eqn:E5; try discriminate.
  injection H as <-. exact (Hwrap _ _ _ _ E5).
Qed.

Lemma parseSchedule_throws_witness :
  Forall boundsChecked (fieldTokens "* * 1-40 * * ls") /\
  parseSchedule (Str "* * 1-40 * * ls")
    (Throw (FailedToParse (RangeOutOfBounds "1-40" 1 31))) /\
  fieldError (RangeOutOfBounds "1-40" 1 31).
Proof.
  assert (Hc : Forall boundsChecked (fieldTokens "* * 1-40 * * ls"))
    by (repeat constructor; left; reflexivity).
  assert (H : parseSchedule (Str "* * 1-40 * * ls")
                (Throw (FailedToParse (RangeOutOfBounds "1-40" 1 31))))
    by (exists 70%nat; reflexivity).
  split; [exact Hc|]. split; [exact H|].
  assert (Hall : forall text, Str "* * 1-40 * * ls" = Str text ->
                              Forall boundsChecked (fieldTokens text))
    by (intros text [= <-]; exact Hc).
  destruct (parseSchedule_throws _ _ Hall H)
    as [[E _]|[[E _]|(cause & E & Hf & _)]]; try discriminate E.
  injection E as <-. exact Hf.
Defined.

(** X10. The fields are expanded from left to right and the first one
    that fails decides the error: when the fields before position [k]
    return and the field at [k] throws, the schedule parser throws that
    error, wrapped, whatever the later fields are. *)
Theorem first_failing_field text tokens k cause :
  splitWhitespace false (trim text) = tokens ->
  (6 <= List.length tokens)%nat ->
  (k < 5)%nat ->
  (forall j, (j < k)%nat ->
     exists r, expand (nth j tokens "") (fieldAt j).(min) (fieldAt j).(max)
                      (Ok r)) ->
  expand (nth k tokens "") (fieldAt k).(min) (fieldAt k).(max) (Throw cause) ->
  parseSchedule (Str text) (Throw (FailedToParse cause)).
Proof.
  intros Htok Hlen Hk Hbefore [fk Hfail].
  destruct (six_tokens tokens) as (f1 & f2 & f3 & f4 & f5 & c & cs & ->);
    [now apply Nat.ltb_ge|].
  assert (Hfuel : forall j, (j < k)%nat ->
             exists fj, forall fuel, (fj <= fuel)%nat ->
               exists r,
                 parseField fuel (nth j (f1 :: f2 :: f3 :: f4 :: f5 :: c :: cs) "")
                            (fieldAt j).(min) (fieldAt j).(max) = Some (Ok r)).
  { intros j Hj. destruct (Hbefore j Hj) as (r & fj & Hr).
    exists fj. intros fuel Hle. exists r. now apply (parseField_mono fj). }
  assert (Hrun : forall fuel, (fk <= fuel)%nat ->
             parseField fuel (nth k (f1 :: f2 :: f3 :: f4 :: f5 :: c :: cs) "")
                        (fieldAt k).(min) (fieldAt k).(max)
             = Some (Throw cause)).
  { intros fuel Hle. now apply (parseField_mono fk). }
  clear Hbefore Hfail.
  assert (H0 := Hfuel 0%nat). assert (H1 := Hfuel 1%nat).
  assert (H2 := Hfuel 2%nat). assert (H3 := Hfuel 3%nat). clear Hfuel.
  unfold parseSchedule.
  destruct k as [|[|[|[|[|k]]]]]; [| | | | |lia]; simpl in *.
  - exists fk. rewrite (parseCronExpression_fields _ _ _ _ _ _ _ _ _ Htok).
    unfold try_catch, bind. now rewrite (Hrun fk (le_n _)).
  - destruct (H0 ltac:(lia)) as [g0 G0].
    set (fuel := Nat.max fk g0).
    exists fuel. rewrite (parseCronExpression_fields _ _ _ _ _ _ _ _ _ Htok).
    destruct (G0 fuel ltac:(lia)) as [r0 ->].
    unfold try_catch, bind. now rewrite (Hrun fuel ltac:(lia)).
  - destruct (H0 ltac:(lia)) as [g0 G0]. destruct (H1 ltac:(lia)) as [g1 G1].
    set (fuel := Nat.max fk (Nat.max g0 g1)).
    exists fuel. rewrite (parseCronExpression_fields _ _ _ _ _ _ _ _ _ Htok).
    destruct (G0 fuel ltac:(lia)) as [r0 ->].
    destruct (G1 fuel ltac:(lia)) as [r1 ->].
    unfold try_catch, bind. now rewrite (Hrun fuel ltac:(lia)).
  - destruct (H0 ltac:(lia)) as [g0 G0]. destruct (H1 ltac:(lia)) as [g1 G1].
    destruct (H2 ltac:(lia)) as [g2 G2].
    set (fuel := Nat.max fk (Nat.max g0 (Nat.max g1 g2))).
    exists fuel. rewrite (parseCronExpression_fields _ _ _ _ _ _ _ _ _ Htok).
    destruct (G0 fuel ltac:(lia)) as [r0 ->].
    destruct (G1 fuel ltac:(lia)) as [r1 ->].
    destruct (G2 fuel ltac:(lia)) as [r2 ->].
    unfold try_catch, bind. now rewrite (Hrun fuel ltac:(lia)).
  - destruct (H0 ltac:(lia)) as [g0 G0]. destruct (H1 ltac:(lia)) as [g1 G1].
    destruct (H2 ltac:(lia)) as [g2 G2]. destruct (H3 ltac:(lia)) as [g3 G3].
    set (fuel := Nat.max fk (Nat.max g0 (Nat.max g1 (Nat.max g2 g3)))).
    exists fuel. rewrite (parseCronExpression_fields _ _ _ _ _ _ _ _ _ Htok).
    destruct (G0 fuel ltac:(lia)) as [r0 ->].
    destruct (G1 fuel ltac:(lia)) as [r1 ->].
    destruct (G2 fuel ltac:(lia)) as [r2 ->].
    destruct (G3 fuel ltac:(lia)) as [r3 ->].
    unfold try_catch, bind. now rewrite (Hrun fuel ltac:(lia)).
Qed.

Lemma first_failing_field_witness :
  parseSchedule (Str "5 24 x * 9 run")
    (Throw (FailedToParse (InvalidValue "24" 0 23))).
Proof.
  apply (first_failing_field "5 24 x * 9 run"
           ["5"; "24"; "x"; "*"; "9"; "run"] 1).
  - reflexivity.
  - simpl. lia.
  - lia.
  - intros j Hj. assert (j = 0%nat) as -> by lia.
    exists [5], 1%nat. reflexivity.
  - exists 1%nat. reflexivity.
Defined.

(** ** Properties of the formatter and of the command line *)

Lemma digit_cases d :
  0 <= d <= 9 ->
  d = 0 \/ d = 1 \/ d = 2 \/ d = 3 \/ d = 4 \/ d = 5 \/ d = 6 \/ d = 7 \/
  d = 8 \/ d = 9.
Proof. lia. Qed.

Lemma digitValue_digitChar d :
  0 <= d <= 9 -> digitValue (digitChar d) = Some d.
Proof.
  intros H. destruct (digit_cases d H)
    as [->|[->|[->|[->|[->|[->|[->|[->|[->| ->]]]]]]]]]; reflexivity.
Qed.

Lemma digitChar_other d c :
  0 <= d <= 9 -> digitValue c = None -> Ascii.eqb (digitChar d) c = false.
Proof.
  intros Hd Hc. destruct (Ascii.eqb (digitChar d) c) eqn:E; [|reflexivity].
  apply Ascii.eqb_eq in E. subst c.
  rewrite (digitValue_digitChar d Hd) in Hc. discriminate.
Qed.

Lemma whitespace_not_digit c : isWhiteSpace c = true -> digitValue c = None.
Proof.
  unfold isWhiteSpace, digitValue.
  destruct ((48 <=? N_of_ascii c)%N && (N_of_ascii c <=? 57)%N) eqn:E;
    [|reflexivity].
  apply andb_true_iff in E. destruct E as [E1 E2]. apply N.leb_le in E1, E2.
  intros H. exfalso.
  repeat (apply orb_true_iff in H; destruct H as [H|H]).
  - apply andb_true_iff in H. destruct H as [_ H]. apply N.leb_le in H. lia.
  - apply N.eqb_eq in H. lia.
  - apply N.eqb_eq in H. lia.
Qed.

Lemma decimalDigits_includes c fuel : forall n acc,
  digitValue c = None -> includes acc c = false ->
  includes (decimalDigits fuel n acc) c = false.
Proof.
  induction fuel as [|fuel IH]; intros n acc Hc Hacc; cbn [decimalDigits];
    [assumption|].
  assert (Hd : includes (String (digitChar (n mod 10)) acc) c = false).
  { cbn [includes]. rewrite digitChar_other, Hacc; [reflexivity| |assumption].
    pose proof (Z.mod_pos_bound n 10). lia. }
  destruct (n <? 10); [assumption|now apply IH].
Qed.

Lemma parseDigits_digit d s a seen :
  0 <= d <= 9 ->
  parseDigits (String (digitChar d) s) a seen = parseDigits s (10 * a + d) true.
Proof.
  intros Hd. cbn [parseDigits]. now rewrite digitValue_digitChar.
Qed.

(** The digits are read back as the number they were printed from. *)
Lemma decimalDigits_parse fuel : forall n acc,
  0 <= n < 2 ^ Z.of_nat (S fuel) ->
  exists p, forall a seen,
    parseDigits (decimalDigits (S fuel) n acc) a seen
    = parseDigits acc (a * p + n) true.
Proof.
  induction fuel as [|fuel IH]; intros n acc Hn;
    change (decimalDigits (S ?f) n acc)
      with (if n <? 10 then String (digitChar (n mod 10)) acc
            else decimalDigits f (n / 10) (String (digitChar (n mod 10)) acc));
    pose proof (Z.mod_pos_bound n 10 ltac:(lia)) as Hm;
    destruct (n <? 10) eqn:E.
  - exists 10. intros a seen. rewrite parseDigits_digit by lia.
    apply Z.ltb_lt in E. rewrite Z.mod_small by lia. f_equal. lia.
  - apply Z.ltb_ge in E. simpl in Hn. lia.
  - exists 10. intros a seen. rewrite parseDigits_digit by lia.
    apply Z.ltb_lt in E. rewrite Z.mod_small by lia. f_equal. lia.
  - apply Z.ltb_ge in E.
    destruct (IH (n / 10) (String (digitChar (n mod 10)) acc)) as [p Hp].
    { split; [apply Z.div_pos; lia|].
      apply Z.div_lt_upper_bound; [lia|].
      rewrite Nat2Z.inj_succ, Z.pow_succ_r in Hn by lia. lia. }
    exists (10 * p). intros a seen. rewrite Hp, parseDigits_digit by lia.
    f_equal. pose proof (Z.div_mod n 10 ltac:(lia)). lia.
Qed.

Lemma log2_fuel n : 0 <= n -> 0 <= n < 2 ^ Z.of_nat (S (Z.to_nat (Z.log2 n))).
Proof.
  intros Hn. split; [assumption|].
  rewrite Nat2Z.inj_succ, Z2Nat.id by apply Z.log2_nonneg.
  destruct (Z.eq_dec n 0) as [->|Hz]; [reflexivity|].
  apply Z.log2_spec. lia.
Qed.

Lemma decimalDigits_head fuel n acc :
  exists d rest, 0 <= d <= 9 /\
    decimalDigits (S fuel) n acc = String (digitChar d) rest.
Proof.
  revert n acc. induction fuel as [|fuel IH]; intros n acc;
    change (decimalDigits (S ?f) n acc)
      with (if n <? 10 then String (digitChar (n mod 10)) acc
            else decimalDigits f (n / 10) (String (digitChar (n mod 10)) acc));
    pose proof (Z.mod_pos_bound n 10 ltac:(lia)) as Hm;
    destruct (n <? 10);
    try (exists (n mod 10); eexists; split; [lia|reflexivity]).
  apply IH.
Qed.

(** [parseInt(String(n))] is [n]. *)
Lemma parseInt_numberToString n : parseInt (numberToString n) = Some n.
Proof.
  unfold numberToString. destruct (n <? 0) eqn:E.
  - apply Z.ltb_lt in E. unfold parseInt. simpl trimStart.
    cbv beta iota. rewrite Ascii.eqb_refl.
    destruct (decimalDigits_parse (Z.to_nat (Z.log2 (- n))) (- n) "")
      as [p Hp]; [apply log2_fuel; lia|].
    rewrite Hp. simpl. f_equal. lia.
  - apply Z.ltb_ge in E.
    destruct (decimalDigits_head (Z.to_nat (Z.log2 n)) n "")
      as (d & rest & Hd & Hhead).
    destruct (decimalDigits_parse (Z.to_nat (Z.log2 n)) n "")
      as [p Hp]; [now apply log2_fuel|].
    unfold parseInt. rewrite Hhead. cbn [trimStart].
    assert (Hw : isWhiteSpace (digitChar d) = false).
    { destruct (isWhiteSpace (digitChar d)) eqn:W; [|reflexivity].
      apply whitespace_not_digit in W.
      rewrite digitValue_digitChar in W by assumption. discriminate. }
    rewrite Hw, !digitChar_other by (assumption || reflexivity).
    rewrite <- Hhead, Hp. simpl. f_equal.
Qed.

Lemma numberToString_includes n c :
  0 <= n -> digitValue c = None -> includes (numberToString n) c = false.
Proof.
  intros Hn Hc. unfold numberToString.
  apply Z.ltb_ge in Hn. rewrite Hn. now apply decimalDigits_includes.
Qed.

Lemma numberToString_includes_any n c :
  digitValue c = None -> Ascii.eqb "-" c = false ->
  includes (numberToString n) c = false.
Proof.
  intros Hc Hm. unfold numberToString. destruct (n <? 0).
  - cbn [includes]. rewrite Hm. now apply decimalDigits_includes.
  - now apply decimalDigits_includes.
Qed.

Lemma trimStart_no_whitespace s :
  (forall c, isWhiteSpace c = true -> includes s c = false) -> trimStart s = s.
Proof.
  intros H. destruct s as [|x s]; [reflexivity|]. simpl.
  destruct (isWhiteSpace x) eqn:W; [|reflexivity].
  specialize (H x W). simpl in H. now rewrite Ascii.eqb_refl in H.
Qed.

Lemma trimEnd_no_whitespace s :
  (forall c, isWhiteSpace c = true -> includes s c = false) -> trimEnd s = s.
Proof.
  induction s as [|x s IH]; intros H; [reflexivity|].
  rewrite trimEnd_cons, IH.
  - destruct s; [|reflexivity].
    destruct (isWhiteSpace x) eqn:W; [|reflexivity].
    specialize (H x W). simpl in H. now rewrite Ascii.eqb_refl in H.
  - intros c Hc. specialize (H c Hc). simpl in H.
    now apply orb_false_iff in H.
Qed.

Lemma trim_no_whitespace s :
  (forall c, isWhiteSpace c = true -> includes s c = false) -> trim s = s.
Proof.
  intros H. unfold trim. rewrite trimStart_no_whitespace by assumption.
  now apply trimEnd_no_whitespace.
Qed.

Lemma trim_numberToString n : 0 <= n -> trim (numberToString n) = numberToString n.
Proof.
  intros Hn. apply trim_no_whitespace. intros c Hc.
  apply numberToString_includes; [assumption|].
  now apply whitespace_not_digit.
Qed.

(** A number within the bounds, printed, expands to itself. *)
Lemma expand_numberToString v min max :
  0 <= v -> min <= v <= max ->
  expand (numberToString v) min max (Ok [v]).
Proof.
  intros Hv Hb. exists 1%nat. rewrite parseField_S.
  rewrite (not_star_of_free _ (numberToString_includes v "*" Hv eq_refl)).
  rewrite (numberToString_includes v "/" Hv eq_refl).
  rewrite (numberToString_includes v "-" Hv eq_refl).
  rewrite (numberToString_includes v "," Hv eq_refl).
  simpl andb. cbv iota. rewrite parseInt_numberToString.
  assert (E : (v <? min) || (v >? max) = false) by lia. now rewrite E.
Qed.

(** X11. Printing and expanding are inverse on value sets: with bounds
    that are safe integers, a non-empty, strictly ascending sequence of
    non-negative values within the bounds, printed with commas between
    its values, expands to itself. *)
Theorem printed_values_expand_to_themselves r min max :
  safeInteger min -> safeInteger max ->
  r <> [] ->
  StronglySorted Z.lt r ->
  Forall (fun v => 0 <= v /\ min <= v <= max) r ->
  expand (joinNumbers r ",") min max (Ok r).
Proof.
  intros _ _ Hne Hsorted Hvals.
  destruct r as [|v1 [|v2 rest]]; [congruence| |].
  - inversion Hvals as [|? ? [Hv Hb] _]; subst.
    now apply expand_numberToString.
  - set (r := v1 :: v2 :: rest) in *. unfold joinNumbers.
    assert (Hfree : forall c, digitValue c = None ->
               Forall (fun piece => includes piece c = false)
                      (map numberToString r)).
    { intros c Hc. apply Forall_forall. intros s Hs.
      apply in_map_iff in Hs. destruct Hs as (v & <- & Hv).
      apply numberToString_includes; [|assumption].
      exact (proj1 (proj1 (Forall_forall _ _) Hvals v Hv)). }
    apply list_returns.
    + apply includes_join_sep.
    + apply includes_join_other; [reflexivity|now apply Hfree].
    + rewrite split_join; [|discriminate|now apply Hfree].
      exists (map (fun v => [v]) r). split; [|split; [assumption|]].
      * clearbody r. clear Hne Hsorted Hfree.
        induction Hvals as [|v r' [Hv Hb] _ IH]; simpl; constructor;
          [|exact IH].
        rewrite trim_numberToString by assumption.
        now apply expand_numberToString.
      * intros v. rewrite in_concat. split.
        -- intros Hv. exists [v]. split; [|now left].
           apply in_map_iff. now exists v.
        -- intros (l & Hl & Hv). apply in_map_iff in Hl.
           destruct Hl as (w & <- & Hw). destruct Hv as [<-|[]]. exact Hw.
Qed.

Lemma printed_values_expand_to_themselves_witness :
  safeInteger 0 /\ safeInteger 59 /\
  joinNumbers [0; 15; 30; 45] "," = "0,15,30,45" /\
  expand "0,15,30,45" 0 59 (Ok [0; 15; 30; 45]).
Proof.
  assert (H0 : safeInteger 0) by (split; reflexivity).
  assert (H59 : safeInteger 59) by (split; reflexivity).
  split; [exact H0|]. split; [exact H59|]. split; [reflexivity|].
  apply (printed_values_expand_to_themselves [0; 15; 30; 45] 0 59 H0 H59).
  - discriminate.
  - repeat constructor.
  - repeat constructor; lia.
Defined.

(** No token holds a white space character. *)
Lemma splitWhitespace_tokens inRun s :
  Forall (fun token => forall c, isWhiteSpace c = true ->
                                 includes token c = false)
         (splitWhitespace inRun s).
Proof.
  revert inRun. induction s as [|x s IH]; intros inRun; simpl.
  - constructor; [reflexivity|constructor].
  - destruct (isWhiteSpace x) eqn:W.
    + destruct inRun; [apply IH|]. constructor; [reflexivity|apply IH].
    + specialize (IH false).
      destruct (splitWhitespace false s) as [|piece pieces].
      * constructor; [|constructor]. intros c Hc. simpl.
        rewrite orb_false_r. destruct (Ascii.eqb x c) eqn:E; [|reflexivity].
        apply Ascii.eqb_eq in E. congruence.
      * inversion IH as [|? ? Hpiece Hpieces]; subst.
        constructor; [|assumption]. intros c Hc. simpl.
        rewrite (Hpiece c Hc), orb_false_r.
        destruct (Ascii.eqb x c) eqn:E; [|reflexivity].
        apply Ascii.eqb_eq in E. congruence.
Qed.

Lemma joinNumbers_one_line values :
  includes (joinNumbers values " ") newline = false.
Proof.
  unfold joinNumbers. apply includes_join_other; [reflexivity|].
  apply Forall_forall. intros s Hs. apply in_map_iff in Hs.
  destruct Hs as (v & <- & _).
  now apply numberToString_includes_any.
Qed.

(** The command of a returned schedule holds no line break. *)
Lemma command_one_line v p :
  parseSchedule v (Ok p) -> includes p.(command) newline = false.
Proof.
  intros H. apply schedule_of_result in H.
  destruct H as (text & f1 & f2 & f3 & f4 & f5 & c & cs & _ & Htok & _ & _
                 & _ & _ & _ & ->).
  apply includes_join_other; [reflexivity|].
  pose proof (splitWhitespace_tokens false (trim text)) as Hall.
  rewrite Htok in Hall.
  do 5 (inversion Hall as [|? ? _ Hall']; subst; clear Hall;
        rename Hall' into Hall).
  eapply Forall_impl; [|exact Hall]. simpl. intros t Ht. now apply Ht.
Qed.

Lemma formatLines_one_line p :
  includes p.(command) newline = false ->
  Forall (fun line => includes line newline = false) (formatLines p).
Proof.
  intros Hc. unfold formatLines.
  repeat constructor; rewrite includes_append;
    rewrite ?joinNumbers_one_line, ?Hc; reflexivity.
Qed.

(** X12. The output for a returned schedule has exactly six lines: split
    at the line breaks it gives back the six lines that were joined, each
    a label padded to 14 characters followed by the values or by the
    command.  (The command holds no line break, since the tokens were
    split at white space.) *)
Theorem formatOutput_six_lines v p :
  parseSchedule v (Ok p) ->
  split (formatOutput p) newline = formatLines p /\
  List.length (split (formatOutput p) newline) = 6%nat /\
  Forall2 (fun label line => exists values,
             line = (label ++ values)%string /\ String.length label = 14%nat)
          [ "minute        "; "hour          "; "day of month  ";
            "month         "; "day of week   "; "command       " ]
          (split (formatOutput p) newline).
Proof.
  intros H. apply command_one_line in H.
  assert (E : split (formatOutput p) newline = formatLines p).
  { unfold formatOutput. apply split_join; [discriminate|].
    now apply formatLines_one_line. }
  rewrite E. split; [reflexivity|]. split; [reflexivity|].
  unfold formatLines. repeat constructor; eexists; split; reflexivity.
Qed.

Lemma formatOutput_six_lines_witness :
  List.length
    (split (formatOutput {| minute := [1]; hour := [2]; dayOfMonth := [3];
                            month := [4]; dayOfWeek := [5];
                            command := "ls -l" |}) newline) = 6%nat.
Proof.
  assert (H : parseSchedule (Str "1 2 3 4 5 ls -l")
                (Ok {| minute := [1]; hour := [2]; dayOfMonth := [3];
                       month := [4]; dayOfWeek := [5]; command := "ls -l" |}))
    by (exists 5%nat; reflexivity).
  exact (proj1 (proj2 (formatOutput_six_lines _ _ H))).
Defined.

Lemma parseCronExpression_total v :
  exists fuel o, parseCronExpression fuel v = Some o.
Proof.
  destruct (negb (ToBoolean v) || negb (typeof v =? "string")%string) eqn:Ev.
  { exists O. eexists. unfold parseCronExpression. now rewrite Ev. }
  destruct (List.length (splitWhitespace false (trim (textOf v))) <? 6)%nat
    eqn:Hlen.
  { exists O. eexists. unfold parseCronExpression. rewrite Ev. cbv zeta.
    now rewrite Hlen. }
  apply orb_false_iff in Ev. destruct Ev as [_ Ev].
  destruct v as [| |b|n|text|]; try discriminate Ev. simpl textOf in Hlen.
  destruct (six_tokens _ Hlen) as (f1 & f2 & f3 & f4 & f5 & c & cs & Htok).
  destruct (parseField_total f1 0 59) as (n1 & o1 & H1).
  destruct (parseField_total f2 0 23) as (n2 & o2 & H2).
  destruct (parseField_total f3 1 31) as (n3 & o3 & H3).
  destruct (parseField_total f4 1 12) as (n4 & o4 & H4).
  destruct (parseField_total f5 0 6) as (n5 & o5 & H5).
  set (fuel := (3 + Nat.max n1 (Nat.max n2 (Nat.max n3 (Nat.max n4 n5))))%nat).
  apply (parseField_mono _ fuel) in H1; [|lia].
  apply (parseField_mono _ fuel) in H2; [|lia].
  apply (parseField_mono _ fuel) in H3; [|lia].
  apply (parseField_mono _ fuel) in H4; [|lia].
  apply (parseField_mono _ fuel) in H5; [|lia].
  exists fuel. rewrite (parseCronExpression_fields _ _ _ _ _ _ _ _ _ Htok).
  unfold try_catch, bind. rewrite H1, H2, H3, H4, H5.
  destruct o1; [|now eexists]. destruct o2; [|now eexists].
  destruct o3; [|now eexists]. destruct o4; [|now eexists].
  destruct o5; now eexists.
Qed.

(** X13. A run of the command line on an argument whose field tokens are
    checked against the bounds (no step, or a step on [*]) ends, in one
    of three ways.  Without an argument the usage text goes to the error
    stream and the process exits with code 1.  When the argument does not
    parse, one line, ["Error: "] and the message of the error, goes to the
    error stream, nothing to the standard output, and the process exits
    with code 1.  When it parses, the formatted schedule goes to the
    standard output, nothing to the error stream, and [process.exit] is
    not called. *)
Theorem main_ends argv :
  Forall boundsChecked (fieldTokens (nth 2 argv "undefined")) ->
  exists x,
    runs argv x /\
    ((skipn 2 argv = [] /\
      x = {| stdout := []; stderr := usage; exitCode := Some 1 |}) \/
     (skipn 2 argv <> [] /\
      exists e,
        parseSchedule (Str (nth 2 argv "undefined")) (Throw e) /\
        x = {| stdout := [];
               stderr := [("Error: " ++ message e)%string];
               exitCode := Some 1 |}) \/
     (skipn 2 argv <> [] /\
      exists p,
        parseSchedule (Str (nth 2 argv "undefined")) (Ok p) /\
        x = {| stdout := [formatOutput p]; stderr := []; exitCode := None |})).
Proof.
  intros _. unfold runs, main.
  destruct (skipn 2 argv) as [|arg args] eqn:Hargs.
  - eexists. split; [exists O; reflexivity|]. left. now split.
  - assert (Harg : nth 0 (arg :: args) "undefined" = nth 2 argv "undefined").
    { destruct argv as [|a0 [|a1 rest]]; try discriminate Hargs.
      simpl in Hargs. now rewrite Hargs. }
    rewrite Harg.
    destruct (parseCronExpression_total (Str (nth 2 argv "undefined")))
      as (fuel & o & H).
    destruct o as [p|e].
    + eexists. split; [exists fuel; simpl; rewrite H; reflexivity|].
      right. right. split; [discriminate|].
      exists p. split; [now exists fuel|reflexivity].
    + eexists. split; [exists fuel; simpl; rewrite H; reflexivity|].
      right. left. split; [discriminate|].
      exists e. split; [now exists fuel|reflexivity].
Qed.

Lemma main_ends_witness :
  Forall boundsChecked (fieldTokens "*/20 7 * * 1-5 ls") /\
  exists x,
    runs ["node"; "cron-parser.js"; "*/20 7 * * 1-5 ls"] x /\
    (x.(stderr) = [] \/ x.(exitCode) = Some 1).
Proof.
  assert (Hc : Forall boundsChecked (fieldTokens "*/20 7 * * 1-5 ls")).
  { unfold fieldTokens. simpl.
    repeat (apply Forall_cons || apply Forall_nil);
      first [left; reflexivity | right; reflexivity]. }
  split; [exact Hc|].
  destruct (main_ends ["node"; "cron-parser.js"; "*/20 7 * * 1-5 ls"] Hc)
    as (x & Hrun & [[_ ->]|[(_ & e & _ & ->)|(_ & p & _ & ->)]]);
    eexists; (split; [eassumption|]); simpl; auto.
Defined.

(** ** White space in a schedule *)

Lemma trimEnd_fixed_tail x s :
  trimEnd (String x s) = String x s -> trimEnd s = s.
Proof.
  rewrite trimEnd_cons. destruct (trimEnd s) as [|y t] eqn:E.
  - destruct (isWhiteSpace x); [discriminate|]. now intros [= <-].
  - now intros [= <-].
Qed.

Lemma trimEnd_fixed_last x :
  trimEnd (String x "") = String x "" -> isWhiteSpace x = false.
Proof.
  simpl. destruct (isWhiteSpace x); [discriminate|reflexivity].
Qed.

(** In a text that does not end with white space, only the first token
    can be empty. *)
Lemma splitWhitespace_nonempty s :
  trimEnd s = s ->
  Forall (fun token => token <> "") (tl (splitWhitespace false s)) /\
  (s <> "" -> Forall (fun token => token <> "") (splitWhitespace true s)).
Proof.
  induction s as [|x s IH]; intros Hfix.
  - split; [constructor|congruence].
  - pose proof (trimEnd_fixed_tail x s Hfix) as Hs.
    destruct (IH Hs) as [IHf IHt]. cbn [splitWhitespace].
    destruct (isWhiteSpace x) eqn:W.
    + assert (Hne : s <> "").
      { intros ->. apply trimEnd_fixed_last in Hfix. congruence. }
      split; [|intros _]; simpl; now apply IHt.
    + destruct (splitWhitespace false s) as [|p ps]; simpl in *.
      * split; [constructor|]. intros _. constructor; [discriminate|constructor].
      * split; [assumption|]. intros _. constructor; [discriminate|assumption].
Qed.

Lemma splitWhitespace_head x s :
  isWhiteSpace x = false ->
  exists p ps, splitWhitespace false (String x s) = String x p :: ps /\
               ps = tl (splitWhitespace false s).
Proof.
  intros W. cbn [splitWhitespace]. rewrite W.
  destruct (splitWhitespace false s) as [|p ps]; simpl; eauto.
Qed.

Lemma trim_head text x t : trim text = String x t -> isWhiteSpace x = false.
Proof.
  unfold trim. induction text as [|y text IH]; simpl; [discriminate|].
  destruct (isWhiteSpace y) eqn:W; [exact IH|].
  rewrite trimEnd_cons. destruct (trimEnd text).
  - rewrite W. now intros [= <- _].
  - now intros [= <- _].
Qed.

(** The tokens of a text that is not blank are not empty. *)
Lemma tokens_nonempty text :
  trim text <> "" ->
  Forall (fun token => token <> "") (splitWhitespace false (trim text)).
Proof.
  intros Hne. destruct (trim text) as [|x t] eqn:E; [congruence|].
  pose proof (trim_head _ _ _ E) as W.
  assert (Hfix : trimEnd (String x t) = String x t).
  { rewrite <- E. unfold trim. apply trimEnd_idem. }
  destruct (splitWhitespace_head x t W) as (p & ps & -> & ->).
  constructor; [discriminate|].
  exact (proj1 (splitWhitespace_nonempty t (trimEnd_fixed_tail _ _ Hfix))).
Qed.

Lemma splitWhitespace_token t : forall rest,
  noWhitespace t ->
  splitWhitespace false (t ++ String " " rest)%string
  = t :: splitWhitespace true rest.
Proof.
  induction t as [|x t IH]; intros rest Ht; cbn [append splitWhitespace].
  - reflexivity.
  - assert (W : isWhiteSpace x = false).
    { destruct (isWhiteSpace x) eqn:W; [|reflexivity].
      specialize (Ht x W). simpl in Ht. now rewrite Ascii.eqb_refl in Ht. }
    rewrite W, IH; [reflexivity|].
    intros c Hc. specialize (Ht c Hc). simpl in Ht.
    now apply orb_false_iff in Ht.
Qed.

Lemma splitWhitespace_last t :
  noWhitespace t -> splitWhitespace false t = [t].
Proof.
  induction t as [|x t IH]; intros Ht; cbn [splitWhitespace]; [reflexivity|].
  assert (W : isWhiteSpace x = false).
  { destruct (isWhiteSpace x) eqn:W; [|reflexivity].
    specialize (Ht x W). simpl in Ht. now rewrite Ascii.eqb_refl in Ht. }
  rewrite W, IH; [reflexivity|].
  intros c Hc. specialize (Ht c Hc). simpl in Ht. now apply orb_false_iff in Ht.
Qed.

Lemma splitWhitespace_started inRun x s :
  isWhiteSpace x = false ->
  splitWhitespace inRun (String x s) = splitWhitespace false (String x s).
Proof.
  intros W. cbn [splitWhitespace]. now rewrite W.
Qed.

Lemma noWhitespace_head x s :
  noWhitespace (String x s) -> isWhiteSpace x = false.
Proof.
  intros H. destruct (isWhiteSpace x) eqn:W; [|reflexivity].
  specialize (H x W). simpl in H. now rewrite Ascii.eqb_refl in H.
Qed.

Lemma join_cons t u rest :
  join (t :: u :: rest) " " = (t ++ String " " (join (u :: rest) " "))%string.
Proof. reflexivity. Qed.

(** Tokens joined by single spaces split into the same tokens. *)
Lemma splitWhitespace_join tokens :
  tokens <> [] ->
  Forall (fun token => token <> "" /\ noWhitespace token) tokens ->
  splitWhitespace false (join tokens " ") = tokens.
Proof.
  induction tokens as [|t rest IH]; [congruence|]. intros _ H.
  inversion H as [|? ? [Hne Hws] Hrest]; subst.
  destruct rest as [|u rest]; [now apply splitWhitespace_last|].
  rewrite join_cons, splitWhitespace_token by assumption. f_equal.
  specialize (IH ltac:(discriminate) Hrest).
  inversion Hrest as [|? ? [Hu Hwu] _]; subst.
  destruct u as [|x u]; [congruence|].
  assert (E : exists s, join (String x u :: rest) " " = String x s).
  { destruct rest; simpl; eauto. }
  destruct E as [s E]. rewrite E in *.
  rewrite splitWhitespace_started; [exact IH|].
  now apply (noWhitespace_head x u).
Qed.

Lemma trimEnd_append s t :
  trimEnd t <> "" -> trimEnd (s ++ t)%string = (s ++ trimEnd t)%string.
Proof.
  intros Ht. induction s as [|x s IH]; [reflexivity|].
  cbn [append]. rewrite trimEnd_cons, IH.
  destruct (s ++ trimEnd t)%string eqn:E; [|reflexivity].
  destruct s; simpl in E; [congruence|discriminate].
Qed.

(** Joined tokens have no white space at either end. *)
Lemma trim_join tokens :
  tokens <> [] ->
  Forall (fun token => token <> "" /\ noWhitespace token) tokens ->
  trim (join tokens " ") = join tokens " ".
Proof.
  intros Hne H.
  assert (Hend : trimEnd (join tokens " ") = join tokens " " /\
                 join tokens " " <> "").
  { induction tokens as [|t rest IH]; [congruence|].
    inversion H as [|? ? [Ht Hws] Hrest]; subst.
    destruct rest as [|u rest].
    - split; [now apply trimEnd_no_whitespace|exact Ht].
    - destruct (IH ltac:(discriminate) Hrest) as [IH1 IH2].
      rewrite join_cons. split.
      + rewrite trimEnd_append; cbn [trimEnd]; rewrite IH1.
        * destruct (join (u :: rest) " "); [congruence|reflexivity].
        * destruct (join (u :: rest) " "); [congruence|discriminate].
      + destruct t; [congruence|discriminate]. }
  destruct Hend as [Hend Hjoin]. unfold trim.
  destruct tokens as [|t rest]; [congruence|].
  inversion H as [|? ? [Ht Hws] _]; subst.
  destruct t as [|x t]; [congruence|].
  assert (E : exists s, join (String x t :: rest) " " = String x s).
  { destruct rest; simpl; eauto. }
  destruct E as [s E]. rewrite E in *.
  cbn [trimStart]. now rewrite (noWhitespace_head x t Hws).
Qed.

(** Normalising a text that is not blank keeps its tokens. *)
Lemma normalised_tokens text :
  trim text <> "" ->
  splitWhitespace false (trim (normalised text))
  = splitWhitespace false (trim text) /\
  normalised text <> "".
Proof.
  intros Hne. unfold normalised.
  set (tokens := splitWhitespace false (trim text)).
  assert (Hall : Forall (fun token => token <> "" /\ noWhitespace token) tokens).
  { apply Forall_forall. intros t Ht. split.
    - exact (proj1 (Forall_forall _ _) (tokens_nonempty text Hne) t Ht).
    - exact (proj1 (Forall_forall _ _)
               (splitWhitespace_tokens false (trim text)) t Ht). }
  assert (Htok : tokens <> []).
  { subst tokens. destruct (trim text) as [|x t] eqn:E; [congruence|].
    destruct (splitWhitespace_head x t (trim_head _ _ _ E)) as (p & ps & -> & _).
    discriminate. }
  rewrite trim_join, splitWhitespace_join by assumption.
  split; [reflexivity|].
  destruct tokens as [|t rest]; [congruence|].
  inversion Hall as [|? ? [Ht _] _]; subst.
  destruct t; [congruence|]. destruct rest; discriminate.
Qed.

(** X14. White space only separates: a schedule text that is not blank
    has the same outcome as the text with its tokens joined by single
    spaces, so that white space around the text and the length and kind of
    the runs between tokens do not matter. *)
Theorem schedule_whitespace_normalised text o :
  trim text <> "" ->
  (parseSchedule (Str text) o <-> parseSchedule (Str (normalised text)) o).
Proof.
  intros Hne. destruct (normalised_tokens text Hne) as [Htok Hnorm].
  assert (Htext : text <> "") by (intros ->; now apply Hne).
  assert (E : forall fuel,
             parseCronExpression fuel (Str (normalised text))
             = parseCronExpression fuel (Str text)).
  { intros fuel. unfold parseCronExpression. simpl typeof. simpl textOf.
    simpl ToBoolean. rewrite Htok.
    apply String.eqb_neq in Htext, Hnorm. now rewrite Htext, Hnorm. }
  unfold parseSchedule. split; intros [fuel H]; exists fuel; congruence.
Qed.

Lemma schedule_whitespace_normalised_witness :
  normalised "  */15   0 1,15 *  1-5   /usr/bin/find  -x " =
  "*/15 0 1,15 * 1-5 /usr/bin/find -x" /\
  parseSchedule (Str "  */15   0 1,15 *  1-5   /usr/bin/find  -x ")
    (Ok {| minute := [0; 15; 30; 45];
           hour := [0];
           dayOfMonth := [1; 15];
           month := [1; 2; 3; 4; 5; 6; 7; 8; 9; 10; 11; 12];
           dayOfWeek := [1; 2; 3; 4; 5];
           command := "/usr/bin/find -x" |}).
Proof.
  split; [reflexivity|].
  apply (proj2 (schedule_whitespace_normalised
                  "  */15   0 1,15 *  1-5   /usr/bin/find  -x " _
                  ltac:(discriminate))).
  exists 20%nat. reflexivity.
Defined.

(** ** Lenient reading of ranges *)

Lemma includes_dash_append a s :
  includes (a ++ String "-" s)%string "-" = true.
Proof.
  rewrite includes_append. simpl. apply orb_true_r.
Qed.

(** X15. A range reads its first two parts only: what follows a second
    [-] is ignored, so that ["1-5-9"] returns what ["1-5"] returns.  Here
    the parts hold no [,] and no [/], and the first two no [-]. *)
Theorem range_ignores_further_parts a b c min max r :
  includes a "-" = false -> includes b "-" = false ->
  Forall (fun ch => includes a ch = false /\ includes b ch = false /\
                    includes c ch = false) [","; "/"]%char ->
  (expand (a ++ String "-" (b ++ String "-" c))%string min max (Ok r) <->
   expand (a ++ String "-" b)%string min max (Ok r)).
Proof.
  intros Ha Hb Hfree.
  assert (Hch : forall ch, In ch [","; "/"]%char ->
              includes (a ++ String "-" (b ++ String "-" c))%string ch = false /\
              includes (a ++ String "-" b)%string ch = false).
  { intros ch Hin.
    destruct (proj1 (Forall_forall _ _) Hfree ch Hin) as (H1 & H2 & H3).
    assert (Hd : Ascii.eqb "-" ch = false)
      by (destruct Hin as [<-|[<-|[]]]; reflexivity).
    rewrite !includes_append. cbn [includes].
    rewrite !includes_append. cbn [includes].
    now rewrite H1, H2, H3, Hd. }
  destruct (Hch ","%char ltac:(simpl; tauto)) as [Hc1 Hc2].
  destruct (Hch "/"%char ltac:(simpl; tauto)) as [Hs1 Hs2].
  assert (E : forall fuel,
             parseRange fuel (a ++ String "-" (b ++ String "-" c))%string
                        min max = Some (Ok r) <->
             parseRange fuel (a ++ String "-" b)%string min max = Some (Ok r)).
  { intros fuel. unfold parseRange.
    rewrite !split_append_sep by assumption.
    rewrite (split_free b "-" Hb). simpl nth.
    destruct (parseInt a) as [x|]; [|unfold throw; split; discriminate].
    destruct (parseInt b) as [y|]; [|unfold throw; split; discriminate].
    destruct (_ || _); [unfold throw; split; discriminate|reflexivity]. }
  unfold expand. split; intros [fuel H]; (destruct fuel as [|fuel];
    [discriminate|]); exists (S fuel);
    rewrite parseField_range in * by
      (assumption || apply includes_dash_append); now apply E.
Qed.

Lemma range_ignores_further_parts_witness :
  expand "1-5-9" 0 59 (Ok [1; 2; 3; 4; 5]).
Proof.
  apply (proj2 (range_ignores_further_parts "1" "5" "9" 0 59 _
                  eq_refl eq_refl ltac:(repeat constructor))).
  exists 10%nat. reflexivity.
Defined.
